(** * Centrifuge read classifier ([classifier.h]): a shallow embedding

    The embedding follows [Classifier<index_t, local_index_t>] of
    [src/classifier.h].  Machine integers are integers of [Z] with the
    wrap-around written out: [uint32_t] values are reduced modulo 2^32,
    [size_t] and [uint64_t] values modulo 2^64, and the index type
    [index_t] is taken at its 32-bit instantiation.  Assertions are
    compiled out, as in a release build. *)

From Stdlib Require Import ZArith List Bool Lia Permutation Sorted.
Import ListNotations.
Local Open Scope Z_scope.

(** ** Machine integers *)

Definition u32 (x : Z) : Z := x mod 2 ^ 32.
Definition u64 (x : Z) : Z := x mod 2 ^ 64.

(** [index_t] arithmetic and [size_t] arithmetic. *)
Definition idx (x : Z) : Z := u32 x.
Definition sz (x : Z) : Z := u64 x.

(** ** Data model: the two counter structs *)

Module SpeciesCount.
Record t : Type := mk
  { id : Z; count : Z; weightedCount : Z; timeStamp : Z }.

(** [reset()] *)
Definition reset : t := mk 0 0 0 0.
End SpeciesCount.

Module GenusCount.
Record t : Type := mk
  { id : Z; count : Z; weightedCount : Z; timeStamp : Z;
    speciesMap : list SpeciesCount.t }.

(** [reset()] *)
Definition reset : t := mk 0 0 0 0 [].
End GenusCount.

(** ** Hierarchical aggregator *)

(** The scan of [addHitToGenusMap]: the first entry whose id is [genusID]
    is credited when its time stamp differs from [hi], and the scan stops
    there.  [None] when no entry has that id. *)
Fixpoint scanGenusMap (genusMap : list GenusCount.t) (genusID hi addWeight : Z)
  : option (nat * list GenusCount.t) :=
  match genusMap with
  | [] => None
  | g :: rest =>
      if GenusCount.id g =? genusID then
        if negb (GenusCount.timeStamp g =? hi) then
          Some (0%nat,
                GenusCount.mk (GenusCount.id g)
                              (u32 (GenusCount.count g + 1))
                              (u32 (GenusCount.weightedCount g + addWeight))
                              (u32 hi)
                              (GenusCount.speciesMap g) :: rest)
        else Some (0%nat, g :: rest)
      else
        match scanGenusMap rest genusID hi addWeight with
        | Some (i, rest') => Some (S i, g :: rest')
        | None => None
        end
  end.

(** [addHitToGenusMap]: returns the index of the entry and the updated map. *)
Definition addHitToGenusMap (genusMap : list GenusCount.t)
           (genusID hi addWeight : Z) : nat * list GenusCount.t :=
  match scanGenusMap genusMap genusID hi addWeight with
  | Some r => r
  | None =>
      (length genusMap,
       genusMap ++ [GenusCount.mk genusID 1 addWeight (u32 hi) []])
  end.

(** The scan of [addHitToSpeciesMap] over [genusCount.speciesMap];
    [gw] is [genusCount.weightedCount].  [None] when [found] stays false. *)
Fixpoint scanSpeciesMap (speciesMap : list SpeciesCount.t)
         (gw speciesID hi addWeight : Z)
  : option (Z * list SpeciesCount.t) :=
  match speciesMap with
  | [] => None
  | s :: rest =>
      if SpeciesCount.id s =? speciesID then
        if negb (SpeciesCount.timeStamp s =? hi) then
          Some (gw,
                SpeciesCount.mk (SpeciesCount.id s)
                                (u32 (SpeciesCount.count s + 1))
                                (u32 (SpeciesCount.weightedCount s + addWeight))
                                (u32 hi) :: rest)
        else Some (0, s :: rest)
      else
        match scanSpeciesMap rest gw speciesID hi addWeight with
        | Some (newScore, rest') => Some (newScore, s :: rest')
        | None => None
        end
  end.

Definition setSpeciesMap (g : GenusCount.t) (sm : list SpeciesCount.t)
  : GenusCount.t :=
  GenusCount.mk (GenusCount.id g) (GenusCount.count g)
                (GenusCount.weightedCount g) (GenusCount.timeStamp g) sm.

(** [addHitToSpeciesMap]: returns [newScore] and the updated genus entry. *)
Definition addHitToSpeciesMap (genusCount : GenusCount.t)
           (speciesID hi addWeight : Z) : Z * GenusCount.t :=
  match scanSpeciesMap (GenusCount.speciesMap genusCount)
                       (GenusCount.weightedCount genusCount)
                       speciesID hi addWeight with
  | Some (newScore, sm) => (newScore, setSpeciesMap genusCount sm)
  | None =>
      (addWeight,
       setSpeciesMap genusCount
         (GenusCount.speciesMap genusCount
            ++ [SpeciesCount.mk speciesID 1 addWeight (u32 hi)]))
  end.

(** Writing through the reference [_genusMap[genusIdx]]. *)
Fixpoint setNth {A : Type} (n : nat) (x : A) (l : list A) : list A :=
  match l, n with
  | [], _ => []
  | _ :: t, O => x :: t
  | h :: t, S n' => h :: setNth n' x t
  end.

(** ** External collaborators *)

(** Modelled from the spec: [Coord] of the absent alignment headers, one
    resolved genome position (reference id, offset, strand). *)
Record Coord : Type := mkCoord { ref : Z; off : Z; fw : bool }.

(** Modelled from the spec: [BWTHit] of the absent [hi_aligner.h], one seed
    match with its suffix-array range [_top, _bot), its match length and
    its offset into the read. *)
Module BWTHit.
Record t : Type := mk { _top : Z; _bot : Z; _len : Z; _bwoff : Z }.

Definition size (h : t) : Z := idx (_bot h - _top h).
Definition len (h : t) : Z := _len h.
End BWTHit.

(** Modelled from the spec: [ReadBWTHit] of the absent [hi_aligner.h], the
    ordered partial hits of one read and strand, with the completion flag
    and the current scan offset. *)
Module ReadBWTHit.
Record t : Type := mk
  { _fw : bool; _len : Z; _cur : Z; _done : bool;
    _partialHits : list BWTHit.t }.

Definition done (h : t) : bool := _done h.
Definition cur (h : t) : Z := _cur h.
Definition offsetSize (h : t) : Z := idx (Z.of_nat (length (_partialHits h))).

(** Modelled from the spec: [setOffset(offset)] of the absent header moves
    the current scan offset. *)
Definition setOffset (h : t) (offset : Z) : t :=
  mk (_fw h) (_len h) offset (_done h) (_partialHits h).

(** Modelled from the spec: [done(true)] of the absent header sets the
    completion flag. *)
Definition setDone (h : t) : t :=
  mk (_fw h) (_len h) (_cur h) true (_partialHits h).

End ReadBWTHit.

(** The classifier object: its configuration and the primitives it calls
    but does not own.  [advanceElement top off] is the reference offset
    [wr.toff] that the group walk returns for element [off] of the range
    starting at [top]; [extractID r] is [extractID(_refnames[r])];
    [shufflePortion] is the permutation drawn from the random source;
    [partialSearch fw hit] is one call of the exact-match primitive. *)
Record Classifier : Type := mkClassifier
  { _minHitLen : Z;
    advanceElement : Z -> Z -> Z;
    extractID : Z -> Z;
    shufflePortion : list Coord -> list Coord;
    partialSearch : bool -> ReadBWTHit.t -> ReadBWTHit.t }.

(** [AlnRes::init(asc, speciesID, genusID)] and [sink.report(mate, &rs)]. *)
Record AlnRes : Type := mkAlnRes { score : Z; speciesID : Z; genusID : Z }.
Record Report : Type := mkReport { mate : Z; res : AlnRes }.

(** ** Classification driver state *)

(** The mutable members and the locals of [go].  [_genomeHits] is the
    inherited scratch list; [walked] counts the calls of
    [advanceElement], one per resolved coordinate. *)
Record State : Type := mkState
  { _genusMap : list GenusCount.t;
    _genomeHits : list Coord;
    bestScore : Z;
    secondBestScore : Z;
    usedPortion : Z;
    genomeHitCnt : Z;
    walked : Z }.

Definition increment : Z := 10.

(** ** Coordinate resolver *)

(** [getGenomeIdx]: the first [nelt] elements of the range are walked. *)
Definition getGenomeIdx (c : Classifier) (top bot : Z) (fw : bool) (maxelt : Z)
  : list Coord :=
  let nelt := Z.min (idx (bot - top)) maxelt in
  map (fun off => mkCoord (advanceElement c top (Z.of_nat off)) 0 fw)
      (seq 0 (Z.to_nat nelt)).

(** [getCoords]: the budget handed to [getGenomeIdx] is
    [maxGenomeHitSize - this->_genomeHits.size()]. *)
Definition getCoords (c : Classifier) (hit : ReadBWTHit.t) (partialHit : BWTHit.t)
           (maxGenomeHitSize : Z) (st : State) : list Coord :=
  getGenomeIdx c (BWTHit._top partialHit) (BWTHit._bot partialHit)
               (negb (ReadBWTHit._fw hit))
               (idx (sz (maxGenomeHitSize - Z.of_nat (length (_genomeHits st))))).

(** ** Scoring and the coordinate loop *)

(** [(uint32_t)((hit_len - 15) * (hit_len - 15))] on [size_t hit_len]. *)
Definition addWeightOf (hit_len : Z) : Z :=
  u32 (sz (sz (hit_len - 15) * sz (hit_len - 15))).

(** Genus then species credit for one coordinate; the new score and map. *)
Definition creditCoord (genusMap : list GenusCount.t)
           (genusID speciesID hi addWeight : Z) : Z * list GenusCount.t :=
  let '(genusIdx, gm) := addHitToGenusMap genusMap genusID hi addWeight in
  let '(newScore, g) :=
    addHitToSpeciesMap (nth genusIdx gm GenusCount.reset) speciesID hi addWeight in
  (newScore, setNth genusIdx g gm).

Definition speciesOf (id : Z) : Z := u32 (Z.shiftr id 32).
Definition genusOf (id : Z) : Z := u32 (Z.land id 4294967295).

(** One iteration of the loop over [coords], its guard already passed. *)
Definition coordStep (c : Classifier) (hi hit_len : Z) (coord : Coord) (st : State)
  : State :=
  let id := u64 (extractID c (ref coord)) in
  let '(newScore, gm) :=
    creditCoord (_genusMap st) (genusOf id) (speciesOf id) hi (addWeightOf hit_len) in
  let '(best, second) :=
    if newScore >? bestScore st then (newScore, bestScore st)
    else if newScore >? secondBestScore st then (bestScore st, newScore)
    else (bestScore st, secondBestScore st) in
  mkState gm (_genomeHits st) best second (usedPortion st)
          (sz (genomeHitCnt st + 1)) (walked st).

(** [for (k = 0; k < coords.size() && genomeHitCnt < maxGenomeHitSize; ...)] *)
Fixpoint coordLoop (c : Classifier) (maxGenomeHitSize hi hit_len : Z)
         (coords : list Coord) (st : State) : State :=
  match coords with
  | [] => st
  | coord :: rest =>
      if genomeHitCnt st <? maxGenomeHitSize then
        coordLoop c maxGenomeHitSize hi hit_len rest (coordStep c hi hit_len coord st)
      else st
  end.

(** ** The loop over partial hits *)

(** The body of the loop up to the end of the coordinate loop; [None] when
    the partial hit is skipped by one of the two [continue] statements.  The
    walk done by [getCoords] is counted in both cases. *)
Definition resolveHit (c : Classifier) (hit : ReadBWTHit.t) (maxGenomeHitSize : Z)
           (partialHit : BWTHit.t) (st : State) : list Coord * State :=
  let coords := getCoords c hit partialHit maxGenomeHitSize st in
  (coords,
   mkState (_genusMap st) (_genomeHits st) (bestScore st) (secondBestScore st)
           (usedPortion st) (genomeHitCnt st)
           (walked st + Z.of_nat (length coords))).

Definition processHit (c : Classifier) (hit : ReadBWTHit.t) (maxGenomeHitSize hi : Z)
           (partialHit : BWTHit.t) (st : State) : State :=
  let hit_len := sz (BWTHit.len partialHit) in
  let '(coords, st1) := resolveHit c hit maxGenomeHitSize partialHit st in
  let st2 :=
    mkState (_genusMap st1) (_genomeHits st1) (bestScore st1) (secondBestScore st1)
            (sz (usedPortion st1 + hit_len)) (genomeHitCnt st1) (walked st1) in
  let coords' :=
    if sz (genomeHitCnt st2 + Z.of_nat (length coords)) >? maxGenomeHitSize
    then shufflePortion c coords else coords in
  coordLoop c maxGenomeHitSize hi hit_len coords' st2.

(** The early-termination test of the last statement of the loop body. *)
Definition scoreGapStop (total : Z) (st : State) : bool :=
  bestScore st >?
    sz (secondBestScore st
        + sz (sz (sz (total - usedPortion st) - 15)
              * sz (sz (total - usedPortion st) - 15))).

(** [for (hi = 0; hi < offsetSize; hi++)] over the sorted partial hits,
    [total] being [totalHitLength[hit._fw == 0]]. *)
Fixpoint hitLoop (c : Classifier) (hit : ReadBWTHit.t) (maxGenomeHitSize : Z)
         (last_round : bool) (total : Z) (hi : Z)
         (partialHits : list BWTHit.t) (st : State) : State :=
  match partialHits with
  | [] => st
  | partialHit :: rest =>
      if sz (BWTHit.len partialHit) <? _minHitLen c then
        hitLoop c hit maxGenomeHitSize last_round total (hi + 1) rest st
      else
        let '(coords, st1) := resolveHit c hit maxGenomeHitSize partialHit st in
        match coords with
        | [] => hitLoop c hit maxGenomeHitSize last_round total (hi + 1) rest st1
        | _ :: _ =>
            let st3 := processHit c hit maxGenomeHitSize hi partialHit st in
            if genomeHitCnt st3 >=? maxGenomeHitSize then st3
            else if last_round && scoreGapStop total st3 then st3
            else hitLoop c hit maxGenomeHitSize last_round total (hi + 1) rest st3
        end
  end.

(** ** Strand selector *)

(** The inner loop of [getForwardOrReverseHit] for one strand: the running
    [totalHitLength[fwi]] and [numHits]. *)
Fixpoint sumHitLength (minHitLen : Z) (partialHits : list BWTHit.t)
         (total numHits : Z) : Z * Z :=
  match partialHits with
  | [] => (total, numHits)
  | h :: rest =>
      if BWTHit.len h <? minHitLen then sumHitLength minHitLen rest total numHits
      else sumHitLength minHitLen rest (idx (total + BWTHit.len h)) (idx (numHits + 1))
  end.

Definition avgHitLength (total numHits : Z) : Z :=
  if numHits >? 0 then idx (total / numHits) else 0.

(** [getForwardOrReverseHit]: the chosen index [fwi], the chosen hit set and
    the updated [totalHitLength] array; [hits] is [_hits[rdi]]. *)
Definition getForwardOrReverseHit (c : Classifier)
           (hits : ReadBWTHit.t * ReadBWTHit.t) (totalHitLength : Z * Z)
  : Z * ReadBWTHit.t * (Z * Z) :=
  let '(t0, n0) :=
    sumHitLength (_minHitLen c) (ReadBWTHit._partialHits (fst hits))
                 (fst totalHitLength) 0 in
  let '(t1, n1) :=
    sumHitLength (_minHitLen c) (ReadBWTHit._partialHits (snd hits))
                 (snd totalHitLength) 0 in
  let fwi := if avgHitLength t0 n0 >? avgHitLength t1 n1 then 0 else 1 in
  (fwi, if fwi =? 0 then fst hits else snd hits, (t0, t1)).

(** ** Ordering of partial hits *)

(** [compareBWTHits]: ascending by range size, then descending by length. *)
Definition compareBWTHits (a b : BWTHit.t) : bool :=
  if BWTHit.size a <? BWTHit.size b then true
  else if BWTHit.size a >? BWTHit.size b then false
  else if BWTHit.len b <? BWTHit.len a then true
  else if BWTHit.len b >? BWTHit.len a then false
  else false.

(** [_partialHits.sort(compareBWTHits())], taken as an insertion sort that
    keeps equal elements in their order. *)
Fixpoint insertBWTHit (h : BWTHit.t) (l : list BWTHit.t) : list BWTHit.t :=
  match l with
  | [] => [h]
  | x :: rest =>
      if compareBWTHits h x then h :: x :: rest else x :: insertBWTHit h rest
  end.

Definition sortBWTHits (l : list BWTHit.t) : list BWTHit.t :=
  fold_left (fun acc h => insertBWTHit h acc) l [].

(** ** Seed search driver *)

(** The body of the inner [for] of [searchForwardAndReverse] for one strand
    that is not done: the new [done[fwi]], [cur[fwi]] and hit.  [None] when
    the search left no partial hit to inspect. *)
Definition searchStep (c : Classifier) (rdlen : Z) (fw : bool) (hit : ReadBWTHit.t)
  : option (bool * Z * ReadBWTHit.t) :=
  let hit := partialSearch c fw hit in
  if ReadBWTHit.done hit then Some (true, sz rdlen, hit)
  else
    let cur := sz (ReadBWTHit.cur hit) in
    match rev (ReadBWTHit._partialHits hit) with
    | [] => None
    | lastHit :: _ =>
        let hit :=
          if BWTHit.len lastHit >? increment then
            if BWTHit.len lastHit <? _minHitLen c
            then ReadBWTHit.setOffset hit (idx (ReadBWTHit.cur hit - increment))
            else ReadBWTHit.setOffset hit (idx (ReadBWTHit.cur hit + 1))
          else hit in
        if idx (ReadBWTHit.cur hit + _minHitLen c) >=? rdlen
        then Some (true, cur, ReadBWTHit.setDone hit)
        else Some (false, cur, hit)
    end.

Record SearchState : Type := mkSearchState
  { done0 : bool; done1 : bool; cur0 : Z; cur1 : Z;
    hit0 : ReadBWTHit.t; hit1 : ReadBWTHit.t }.

(** One pass of the [while] body: both strands, then the comparison of the
    two scan positions against [maxDiff]. *)
Definition searchPass (c : Classifier) (rdlen maxDiff : Z) (s : SearchState)
  : option SearchState :=
  match (if done0 s then Some (true, cur0 s, hit0 s)
         else searchStep c rdlen true (hit0 s)) with
  | None => None
  | Some (d0, c0, h0) =>
      match (if done1 s then Some (true, cur1 s, hit1 s)
             else searchStep c rdlen false (hit1 s)) with
      | None => None
      | Some (d1, c1, h1) =>
          if c0 >? sz (c1 + maxDiff)
          then Some (mkSearchState d0 true c0 c1 h0 (ReadBWTHit.setDone h1))
          else if c1 >? sz (c0 + maxDiff)
          then Some (mkSearchState true d1 c0 c1 (ReadBWTHit.setDone h0) h1)
          else Some (mkSearchState d0 d1 c0 c1 h0 h1)
      end
  end.

Fixpoint searchLoop (fuel : nat) (c : Classifier) (rdlen maxDiff : Z)
         (s : SearchState) : option SearchState :=
  if done0 s && done1 s then Some s
  else
    match fuel with
    | O => None
    | S fuel' =>
        match searchPass c rdlen maxDiff s with
        | None => None
        | Some s' => searchLoop fuel' c rdlen maxDiff s'
        end
    end.

(** [searchForwardAndReverse] on the two hit sets of one mate. *)
Definition searchForwardAndReverse (fuel : nat) (c : Classifier) (rdlen : Z)
           (hits : ReadBWTHit.t * ReadBWTHit.t)
  : option (ReadBWTHit.t * ReadBWTHit.t) :=
  let maxDiff :=
    if idx (rdlen / 2) >? idx (2 * _minHitLen c)
    then idx (rdlen / 2) else idx (2 * _minHitLen c) in
  match searchLoop fuel c rdlen maxDiff
                   (mkSearchState false false 0 0 (fst hits) (snd hits)) with
  | Some s => Some (hit0 s, hit1 s)
  | None => None
  end.

(** ** The entry point *)

(** One iteration of the loop over mates, after the seed search: [hits] is
    [_hits[rdi]] as [searchForwardAndReverse] leaves it. *)
Definition classifyMate (c : Classifier) (maxGenomeHitSize : Z) (paired : bool)
           (rdi : Z) (hits : ReadBWTHit.t * ReadBWTHit.t) (st : State) : State :=
  let '(_, hit, totalHitLength) := getForwardOrReverseHit c hits (0, 0) in
  let sorted := sortBWTHits (ReadBWTHit._partialHits hit) in
  let st0 :=
    mkState (_genusMap st) [] (bestScore st) (secondBestScore st) 0 0 (walked st) in
  let last_round := rdi =? (if paired then 1 else 0) in
  let total :=
    if negb (ReadBWTHit._fw hit) then snd totalHitLength else fst totalHitLength in
  hitLoop c hit maxGenomeHitSize last_round total 0 sorted st0.

(** The report loop over [_genusMap]. *)
Definition reportGenus (genusCount : GenusCount.t) : list Report :=
  map (fun s =>
         mkReport 0
           (mkAlnRes (u32 (GenusCount.weightedCount genusCount
                           + SpeciesCount.weightedCount s))
                     (SpeciesCount.id s)
                     (GenusCount.id genusCount)))
      (GenusCount.speciesMap genusCount).

Definition reportAll (genusMap : list GenusCount.t) : list Report :=
  flat_map reportGenus genusMap.

Definition initState : State := mkState [] [] 0 0 0 0 0.

(** The state of [go] when the loop over mates ends. *)
Definition goState (c : Classifier) (khits : Z) (paired : bool)
           (hits : Z -> ReadBWTHit.t * ReadBWTHit.t) : State :=
  let maxGenomeHitSize := idx khits in
  let st := classifyMate c maxGenomeHitSize paired 0 (hits 0) initState in
  if paired then classifyMate c maxGenomeHitSize paired 1 (hits 1) st else st.

(** [go]: the status code and what the sink receives, in order. *)
Definition go (c : Classifier) (khits : Z) (paired : bool)
           (hits : Z -> ReadBWTHit.t * ReadBWTHit.t) : Z * list Report :=
  (0, reportAll (_genusMap (goState c khits paired hits))).

(** [go] with the seed search run on the hit sets [hits0] of the freshly
    loaded mates, of lengths [rdlen]. *)
Definition goWithSearch (fuel : nat) (c : Classifier) (khits : Z) (paired : bool)
           (rdlen : Z -> Z) (hits0 : Z -> ReadBWTHit.t * ReadBWTHit.t)
  : option (Z * list Report) :=
  match searchForwardAndReverse fuel c (rdlen 0) (hits0 0) with
  | None => None
  | Some h0 =>
      if paired then
        match searchForwardAndReverse fuel c (rdlen 1) (hits0 1) with
        | None => None
        | Some h1 => Some (go c khits true (fun rdi => if rdi =? 0 then h0 else h1))
        end
      else Some (go c khits false (fun _ => h0))
  end.

(** ** Observations on the counter maps *)

(** The entry a linear scan for [genusID] stops at. *)
Fixpoint findGenus (genusMap : list GenusCount.t) (genusID : Z)
  : option GenusCount.t :=
  match genusMap with
  | [] => None
  | g :: rest =>
      if GenusCount.id g =? genusID then Some g else findGenus rest genusID
  end.

Fixpoint findSpecies (speciesMap : list SpeciesCount.t) (speciesID : Z)
  : option SpeciesCount.t :=
  match speciesMap with
  | [] => None
  | s :: rest =>
      if SpeciesCount.id s =? speciesID then Some s else findSpecies rest speciesID
  end.

(** Count and weighted count credited so far to a genus, 0 without entry. *)
Definition genusCountOf (m : list GenusCount.t) (g : Z) : Z :=
  match findGenus m g with Some e => GenusCount.count e | None => 0 end.

Definition genusWeightOf (m : list GenusCount.t) (g : Z) : Z :=
  match findGenus m g with Some e => GenusCount.weightedCount e | None => 0 end.

Definition speciesMapOf (m : list GenusCount.t) (g : Z) : list SpeciesCount.t :=
  match findGenus m g with Some e => GenusCount.speciesMap e | None => [] end.

(** The same for a species under a genus. *)
Definition speciesCountOf (m : list GenusCount.t) (g s : Z) : Z :=
  match findSpecies (speciesMapOf m g) s with
  | Some e => SpeciesCount.count e
  | None => 0
  end.

Definition speciesWeightOf (m : list GenusCount.t) (g s : Z) : Z :=
  match findSpecies (speciesMapOf m g) s with
  | Some e => SpeciesCount.weightedCount e
  | None => 0
  end.

(** The genus credit on the entry found, or on no entry. *)
Definition creditGenusEntry (o : option GenusCount.t) (genusID hi addWeight : Z)
  : GenusCount.t :=
  match o with
  | Some g =>
      if GenusCount.timeStamp g =? hi then g
      else GenusCount.mk (GenusCount.id g) (u32 (GenusCount.count g + 1))
                         (u32 (GenusCount.weightedCount g + addWeight))
                         (u32 hi) (GenusCount.speciesMap g)
  | None => GenusCount.mk genusID 1 addWeight (u32 hi) []
  end.

(** Position of the report for species [mi] of genus [gi] in the sink. *)
Definition reportOffset (m : list GenusCount.t) (gi : nat) : nat :=
  list_sum (map (fun g => length (GenusCount.speciesMap g)) (firstn gi m)).

(** The strand average as the specification words it: the qualifying hits
    are those of length at least [minHitLen]; their average is the sum of
    their lengths over their number, and 0 when there is none. *)
Definition qualifyingLens (minHitLen : Z) (partialHits : list BWTHit.t) : list Z :=
  map BWTHit.len (filter (fun h => minHitLen <=? BWTHit.len h) partialHits).

Definition sumZ (l : list Z) : Z := fold_right Z.add 0 l.

Definition specAvgHitLength (minHitLen : Z) (partialHits : list BWTHit.t) : Z :=
  let q := qualifyingLens minHitLen partialHits in
  match q with
  | [] => 0
  | _ :: _ => sumZ q / Z.of_nat (length q)
  end.

(** Range of the fields a [uint32_t weightedCount] can hold. *)
Definition wfGenusMap (m : list GenusCount.t) : Prop :=
  Forall (fun g => 0 <= GenusCount.weightedCount g < 2 ^ 32) m.

(** The species credit on the entry found, or on no entry. *)
Definition creditSpeciesEntry (o : option SpeciesCount.t)
           (speciesID hi addWeight : Z) : SpeciesCount.t :=
  match o with
  | Some s =>
      if SpeciesCount.timeStamp s =? hi then s
      else SpeciesCount.mk (SpeciesCount.id s) (u32 (SpeciesCount.count s + 1))
                           (u32 (SpeciesCount.weightedCount s + addWeight))
                           (u32 hi)
  | None => SpeciesCount.mk speciesID 1 addWeight (u32 hi)
  end.

(** What a round can see of an entry: count, weighted count, and the time
    stamp when the entry exists. *)
Definition Obs : Type := (Z * Z * option Z)%type.

Definition genusObs (m : list GenusCount.t) (g : Z) : Obs :=
  (genusCountOf m g, genusWeightOf m g,
   option_map GenusCount.timeStamp (findGenus m g)).

Definition speciesObs (m : list GenusCount.t) (g s : Z) : Obs :=
  (speciesCountOf m g s, speciesWeightOf m g s,
   option_map SpeciesCount.timeStamp (findSpecies (speciesMapOf m g) s)).

(** The effect of one coordinate of round [hi] on an entry: nothing, or one
    credit of [w] that stamps the entry with [hi], the latter only when the
    entry does not carry that stamp yet. *)
Definition creditStep (hi w : Z) (o o' : Obs) : Prop :=
  o' = o \/
  (snd o <> Some hi /\
   o' = (u32 (fst (fst o) + 1), u32 (snd (fst o) + w), Some hi)).

(** The effect of any number of coordinates of round [hi]. *)
Definition creditedAtMostOnce (hi w : Z) (o o' : Obs) : Prop :=
  o' = o \/
  o' = (u32 (fst (fst o) + 1), u32 (snd (fst o) + w), Some hi).

(** The two score trackers hold values a [uint32_t newScore] produced, the
    best at least the second best. *)
Definition scoreInv (st : State) : Prop :=
  wfGenusMap (_genusMap st) /\
  0 <= secondBestScore st <= bestScore st /\ bestScore st < 2 ^ 32.

(** ** Further observations on the maps and the reports *)

Definition genusIds (m : list GenusCount.t) : list Z := map GenusCount.id m.

Definition speciesIds (sm : list SpeciesCount.t) : list Z := map SpeciesCount.id sm.

(** Entries are unique by id, in the genus map and in every species map. *)
Definition uniqueIds (m : list GenusCount.t) : Prop :=
  NoDup (genusIds m) /\
  Forall (fun g => NoDup (speciesIds (GenusCount.speciesMap g))) m.

(** The number of species entries under all genus entries. *)
Definition speciesEntries (m : list GenusCount.t) : nat :=
  list_sum (map (fun g => length (GenusCount.speciesMap g)) m).

(** The pair of taxonomy ids a report carries. *)
Definition reportKey (r : Report) : Z * Z :=
  (speciesID (res r), genusID (res r)).

(** [a] is not placed after [b] by the order of [compareBWTHits]. *)
Definition notAfter (a b : BWTHit.t) : Prop := compareBWTHits b a = false.

(** What the flags of the search loop say of the two hit sets: a strand whose
    [done] flag is set has its hit set marked done. *)
Definition flagsAgree (s : SearchState) : Prop :=
  (done0 s = true -> ReadBWTHit.done (hit0 s) = true) /\
  (done1 s = true -> ReadBWTHit.done (hit1 s) = true).

(** How the counts of a species entry and of its genus entry stand to each
    other: the species was credited at least once and at most as often as
    the genus, and less often when the two were last credited in rounds of
    different index. *)
Definition speciesCountInv (genusCount genusStamp : Z) (x : SpeciesCount.t) : Prop :=
  1 <= SpeciesCount.count x <= genusCount /\
  (SpeciesCount.timeStamp x <> genusStamp -> SpeciesCount.count x < genusCount).

Definition genusCountInv (n : Z) (g : GenusCount.t) : Prop :=
  1 <= GenusCount.count g <= n /\
  Forall (speciesCountInv (GenusCount.count g) (GenusCount.timeStamp g))
         (GenusCount.speciesMap g).

(** The counts of a map after at most [n] credited coordinates. *)
Definition countInv (n : Z) (m : list GenusCount.t) : Prop :=
  Forall (genusCountInv n) m.

(** ** Sample reads *)

(** [packID species genus] is the 64-bit id a reference name encodes. *)
Definition packID (species genus : Z) : Z := species * 2 ^ 32 + genus.

(** A classifier over an index in which element [off] of the range starting
    at [top] lies on reference [top + off], with an identity shuffle and a
    search primitive that has nothing left to do. *)
Definition sampleClassifier (minHitLen : Z) (extract : Z -> Z) : Classifier :=
  mkClassifier minHitLen (fun top off => top + off) extract
               (fun l => l) (fun _ h => h).

(** The hit set of a strand of a read of 100 bases whose search is over. *)
Definition searchedHits (fw : bool) (l : list BWTHit.t) : ReadBWTHit.t :=
  ReadBWTHit.mk fw 100 100 true l.

(** Every reference belongs to species 7 of genus 3. *)
Definition oneTaxon : Z -> Z := fun _ => packID 7 3.

(** Two forward hits of length 30, three positions each; budget 5. *)
Definition twoRangesOfThree : Z -> ReadBWTHit.t * ReadBWTHit.t :=
  fun _ => (searchedHits true [BWTHit.mk 0 3 30 0; BWTHit.mk 10 13 30 40],
            searchedHits false []).

(** One forward hit of the given length on a single position. *)
Definition oneHitOfLength (len : Z) : Z -> ReadBWTHit.t * ReadBWTHit.t :=
  fun _ => (searchedHits true [BWTHit.mk 0 1 len 0], searchedHits false []).

(** The scenario of the specification: one forward hit of length 40 on
    three positions, two of species 100 and one of species 200 of genus 1. *)
Definition twoSpecies : Z -> Z :=
  fun r => if r <? 2 then packID 100 1 else packID 200 1.

Definition scenarioHits : Z -> ReadBWTHit.t * ReadBWTHit.t :=
  fun _ => (searchedHits true [BWTHit.mk 0 3 40 0], searchedHits false []).

(** A search primitive that reports a partial hit of length 5 ending at
    offset 5 and is not done. *)
Definition shortHitSearch : bool -> ReadBWTHit.t -> ReadBWTHit.t :=
  fun fw _ => ReadBWTHit.mk fw 100 5 false [BWTHit.mk 0 9 5 0].

Definition shortHitClassifier : Classifier :=
  mkClassifier 22 (fun top off => top + off) oneTaxon (fun l => l) shortHitSearch.

(** Strands with qualifying averages 30 and 45. *)
Definition strands30and45 : ReadBWTHit.t * ReadBWTHit.t :=
  (searchedHits true [BWTHit.mk 0 1 30 0; BWTHit.mk 2 3 12 40],
   searchedHits false [BWTHit.mk 0 1 40 0; BWTHit.mk 4 5 50 45]).

(** * Properties *)

(** ** Machine arithmetic *)

Lemma u32_range (x : Z) : 0 <= u32 x < 2 ^ 32.
Proof. unfold u32. apply Z.mod_pos_bound. lia. Qed.

Lemma u64_range (x : Z) : 0 <= u64 x < 2 ^ 64.
Proof. unfold u64. apply Z.mod_pos_bound. lia. Qed.

Lemma u32_small (x : Z) : 0 <= x < 2 ^ 32 -> u32 x = x.
Proof. intros H. unfold u32. apply Z.mod_small. exact H. Qed.

Lemma u64_small (x : Z) : 0 <= x < 2 ^ 64 -> u64 x = x.
Proof. intros H. unfold u64. apply Z.mod_small. exact H. Qed.

Lemma u32_le (x : Z) : 0 <= x -> u32 x <= x.
Proof. intros H. unfold u32. apply Z.mod_le; lia. Qed.

Lemma u64_mul_mod (x y : Z) : u64 (u64 x * u64 y) = u64 (x * y).
Proof. unfold u64. symmetry. apply Z.mul_mod. lia. Qed.

Lemma u64_sub_mod (x k : Z) : u64 (u64 x - k) = u64 (x - k).
Proof. unfold u64. rewrite Zminus_mod_idemp_l. reflexivity. Qed.

Lemma u32_u64 (x : Z) : u32 (u64 x) = u32 x.
Proof.
  unfold u32, u64.
  apply Z.mod_mod_divide.
  exists (2 ^ 32). reflexivity.
Qed.

(** The weight of a hit is the square of [hit_len - 15] modulo 2^32, for
    every length: the wrap of the unsigned difference below 15 cancels in
    the square. *)
Lemma addWeightOf_mod (hit_len : Z) :
  addWeightOf hit_len = ((hit_len - 15) * (hit_len - 15)) mod 2 ^ 32.
Proof.
  unfold addWeightOf, sz.
  rewrite u64_mul_mod, u32_u64. reflexivity.
Qed.

Lemma addWeightOf_range (hit_len : Z) : 0 <= addWeightOf hit_len < 2 ^ 32.
Proof. unfold addWeightOf. apply u32_range. Qed.

(** ** The aggregator, entry by entry *)

Lemma addHitToSpeciesMap_fields (e : GenusCount.t) (s hi w : Z) :
  let e' := snd (addHitToSpeciesMap e s hi w) in
  GenusCount.id e' = GenusCount.id e /\
  GenusCount.count e' = GenusCount.count e /\
  GenusCount.weightedCount e' = GenusCount.weightedCount e /\
  GenusCount.timeStamp e' = GenusCount.timeStamp e.
Proof.
  unfold addHitToSpeciesMap.
  destruct (scanSpeciesMap _ _ _ _ _) as [[sc sm]|]; simpl; auto.
Qed.

Lemma scanSpeciesMap_spec (sm : list SpeciesCount.t) (gw s hi w : Z) :
  match findSpecies sm s with
  | None => scanSpeciesMap sm gw s hi w = None
  | Some x =>
      exists sm',
        scanSpeciesMap sm gw s hi w
        = Some (if SpeciesCount.timeStamp x =? hi then 0 else gw, sm') /\
        findSpecies sm' s = Some (creditSpeciesEntry (Some x) s hi w) /\
        forall s', s' <> s -> findSpecies sm' s' = findSpecies sm s'
  end.
Proof.
  induction sm as [|x rest IH]; simpl; [reflexivity|].
  destruct (SpeciesCount.id x =? s) eqn:E.
  - apply Z.eqb_eq in E.
    destruct (SpeciesCount.timeStamp x =? hi) eqn:T; simpl.
    + eexists; split; [reflexivity|]. simpl.
      split.
      * rewrite (proj2 (Z.eqb_eq _ _) E). reflexivity.
      * intros s' Hs'. reflexivity.
    + eexists; split; [reflexivity|]. simpl.
      split.
      * rewrite (proj2 (Z.eqb_eq _ _) E). reflexivity.
      * intros s' Hs'.
        destruct (SpeciesCount.id x =? s') eqn:E'; [|reflexivity].
        apply Z.eqb_eq in E'. congruence.
  - destruct (findSpecies rest s) as [y|].
    + destruct IH as (sm' & Hscan & Hsame & Hother).
      rewrite Hscan. eexists; split; [reflexivity|]. simpl.
      rewrite E. split; [exact Hsame|].
      intros s' Hs'. rewrite (Hother s' Hs'). reflexivity.
    + rewrite IH. reflexivity.
Qed.

Lemma findSpecies_app_new (sm : list SpeciesCount.t) (x : SpeciesCount.t) (s : Z) :
  findSpecies (sm ++ [x]) s
  = match findSpecies sm s with
    | Some y => Some y
    | None => if SpeciesCount.id x =? s then Some x else None
    end.
Proof.
  induction sm as [|y rest IH]; simpl; [reflexivity|].
  destruct (SpeciesCount.id y =? s); [reflexivity|exact IH].
Qed.

(** The score [addHitToSpeciesMap] returns, by the entry its scan finds. *)
Lemma addHitToSpeciesMap_score (e : GenusCount.t) (s hi w : Z) :
  fst (addHitToSpeciesMap e s hi w)
  = match findSpecies (GenusCount.speciesMap e) s with
    | None => w
    | Some x =>
        if SpeciesCount.timeStamp x =? hi then 0 else GenusCount.weightedCount e
    end.
Proof.
  unfold addHitToSpeciesMap.
  pose proof (scanSpeciesMap_spec (GenusCount.speciesMap e)
                (GenusCount.weightedCount e) s hi w) as H.
  destruct (findSpecies (GenusCount.speciesMap e) s) as [x|].
  - destruct H as (sm' & Hscan & _). rewrite Hscan. reflexivity.
  - rewrite H. reflexivity.
Qed.

Lemma addHitToSpeciesMap_same (e : GenusCount.t) (s hi w : Z) :
  findSpecies (GenusCount.speciesMap (snd (addHitToSpeciesMap e s hi w))) s
  = Some (creditSpeciesEntry (findSpecies (GenusCount.speciesMap e) s) s hi w).
Proof.
  unfold addHitToSpeciesMap.
  pose proof (scanSpeciesMap_spec (GenusCount.speciesMap e)
                (GenusCount.weightedCount e) s hi w) as H.
  destruct (findSpecies (GenusCount.speciesMap e) s) as [x|] eqn:F.
  - destruct H as (sm' & Hscan & Hsame & _). rewrite Hscan. exact Hsame.
  - rewrite H. simpl. rewrite findSpecies_app_new, F. simpl.
    rewrite Z.eqb_refl. reflexivity.
Qed.

Lemma addHitToSpeciesMap_other (e : GenusCount.t) (s hi w s' : Z) :
  s' <> s ->
  findSpecies (GenusCount.speciesMap (snd (addHitToSpeciesMap e s hi w))) s'
  = findSpecies (GenusCount.speciesMap e) s'.
Proof.
  intros Hs'. unfold addHitToSpeciesMap.
  pose proof (scanSpeciesMap_spec (GenusCount.speciesMap e)
                (GenusCount.weightedCount e) s hi w) as H.
  destruct (findSpecies (GenusCount.speciesMap e) s) as [x|] eqn:F.
  - destruct H as (sm' & Hscan & _ & Hother). rewrite Hscan. simpl.
    apply Hother. exact Hs'.
  - rewrite H. simpl. rewrite findSpecies_app_new.
    destruct (findSpecies (GenusCount.speciesMap e) s'); [reflexivity|].
    simpl. destruct (s =? s') eqn:E; [|reflexivity].
    apply Z.eqb_eq in E. congruence.
Qed.

Lemma addHitToGenusMap_same (e : GenusCount.t) (rest : list GenusCount.t)
      (g hi w : Z) :
  GenusCount.id e = g ->
  addHitToGenusMap (e :: rest) g hi w
  = (0%nat, creditGenusEntry (Some e) g hi w :: rest).
Proof.
  intros E. unfold addHitToGenusMap. simpl.
  rewrite (proj2 (Z.eqb_eq _ _) E).
  destruct (GenusCount.timeStamp e =? hi); reflexivity.
Qed.

Lemma addHitToGenusMap_other (e : GenusCount.t) (rest : list GenusCount.t)
      (g hi w : Z) :
  GenusCount.id e <> g ->
  addHitToGenusMap (e :: rest) g hi w
  = (S (fst (addHitToGenusMap rest g hi w)),
     e :: snd (addHitToGenusMap rest g hi w)).
Proof.
  intros E. unfold addHitToGenusMap. simpl.
  rewrite (proj2 (Z.eqb_neq _ _) E).
  destruct (scanGenusMap rest g hi w) as [[i m']|]; reflexivity.
Qed.

Lemma creditCoord_nil (g s hi w : Z) :
  creditCoord [] g s hi w
  = (fst (addHitToSpeciesMap (creditGenusEntry None g hi w) s hi w),
     [snd (addHitToSpeciesMap (creditGenusEntry None g hi w) s hi w)]).
Proof.
  unfold creditCoord, addHitToGenusMap. cbn [scanGenusMap length app nth setNth].
  fold (creditGenusEntry None g hi w).
  destruct (addHitToSpeciesMap (creditGenusEntry None g hi w) s hi w); reflexivity.
Qed.

Lemma creditCoord_same (e : GenusCount.t) (rest : list GenusCount.t)
      (g s hi w : Z) :
  GenusCount.id e = g ->
  creditCoord (e :: rest) g s hi w
  = (fst (addHitToSpeciesMap (creditGenusEntry (Some e) g hi w) s hi w),
     snd (addHitToSpeciesMap (creditGenusEntry (Some e) g hi w) s hi w) :: rest).
Proof.
  intros E. unfold creditCoord. rewrite (addHitToGenusMap_same _ _ _ _ _ E).
  cbn [nth setNth].
  destruct (addHitToSpeciesMap (creditGenusEntry (Some e) g hi w) s hi w);
    reflexivity.
Qed.

Lemma creditCoord_other (e : GenusCount.t) (rest : list GenusCount.t)
      (g s hi w : Z) :
  GenusCount.id e <> g ->
  creditCoord (e :: rest) g s hi w
  = (fst (creditCoord rest g s hi w), e :: snd (creditCoord rest g s hi w)).
Proof.
  intros E. unfold creditCoord. rewrite (addHitToGenusMap_other _ _ _ _ _ E).
  destruct (addHitToGenusMap rest g hi w) as [i gm]. cbn [fst snd nth setNth].
  destruct (addHitToSpeciesMap (nth i gm GenusCount.reset) s hi w); reflexivity.
Qed.

Lemma creditGenusEntry_id (o : option GenusCount.t) (g hi w : Z) :
  (forall e, o = Some e -> GenusCount.id e = g) ->
  GenusCount.id (creditGenusEntry o g hi w) = g.
Proof.
  intros H. destruct o as [e|]; simpl; [|reflexivity].
  destruct (GenusCount.timeStamp e =? hi); simpl; apply H; reflexivity.
Qed.

Lemma creditGenusEntry_speciesMap (o : option GenusCount.t) (g hi w : Z) :
  GenusCount.speciesMap (creditGenusEntry o g hi w)
  = match o with Some e => GenusCount.speciesMap e | None => [] end.
Proof.
  destruct o as [e|]; simpl; [|reflexivity].
  destruct (GenusCount.timeStamp e =? hi); reflexivity.
Qed.

Lemma findGenus_id (m : list GenusCount.t) (g : Z) (e : GenusCount.t) :
  findGenus m g = Some e -> GenusCount.id e = g.
Proof.
  induction m as [|x rest IH]; simpl; [discriminate|].
  destruct (GenusCount.id x =? g) eqn:E; [|exact IH].
  intros H. injection H as <-. apply Z.eqb_eq. exact E.
Qed.

(** After one coordinate, the scan for its genus finds the entry that was
    credited at genus and then at species level. *)
Lemma creditCoord_find_same (m : list GenusCount.t) (g s hi w : Z) :
  findGenus (snd (creditCoord m g s hi w)) g
  = Some (snd (addHitToSpeciesMap
                 (creditGenusEntry (findGenus m g) g hi w) s hi w)).
Proof.
  induction m as [|e rest IH].
  - rewrite creditCoord_nil. cbn [snd findGenus].
    destruct (addHitToSpeciesMap_fields (creditGenusEntry None g hi w) s hi w)
      as (Hid & _).
    rewrite Hid. simpl. rewrite Z.eqb_refl. reflexivity.
  - cbn [findGenus]. destruct (GenusCount.id e =? g) eqn:E.
    + apply Z.eqb_eq in E. rewrite (creditCoord_same _ _ _ _ _ _ E).
      cbn [snd findGenus].
      destruct (addHitToSpeciesMap_fields
                  (creditGenusEntry (Some e) g hi w) s hi w) as (Hid & _).
      rewrite Hid, creditGenusEntry_id.
      * rewrite Z.eqb_refl. reflexivity.
      * intros e' He'. injection He' as <-. exact E.
    + pose proof E as E'. apply Z.eqb_neq in E'.
      rewrite (creditCoord_other _ _ _ _ _ _ E').
      cbn [snd findGenus]. rewrite E. exact IH.
Qed.

(** The scans for the other genera find what they found before. *)
Lemma creditCoord_find_other (m : list GenusCount.t) (g s hi w g' : Z) :
  g' <> g ->
  findGenus (snd (creditCoord m g s hi w)) g' = findGenus m g'.
Proof.
  intros Hg. induction m as [|e rest IH].
  - rewrite creditCoord_nil. cbn [snd findGenus].
    destruct (addHitToSpeciesMap_fields (creditGenusEntry None g hi w) s hi w)
      as (Hid & _).
    rewrite Hid. simpl.
    destruct (g =? g') eqn:E; [|reflexivity].
    apply Z.eqb_eq in E. congruence.
  - destruct (Z.eq_dec (GenusCount.id e) g) as [E|E].
    + rewrite (creditCoord_same _ _ _ _ _ _ E). cbn [snd findGenus].
      destruct (addHitToSpeciesMap_fields
                  (creditGenusEntry (Some e) g hi w) s hi w) as (Hid & _).
      rewrite Hid, creditGenusEntry_id.
      * rewrite E. destruct (g =? g') eqn:E2; [|reflexivity].
        apply Z.eqb_eq in E2. congruence.
      * intros e' He'. injection He' as <-. exact E.
    + rewrite (creditCoord_other _ _ _ _ _ _ E). cbn [snd findGenus].
      rewrite IH. reflexivity.
Qed.

(** The score of one coordinate is the score of the species credit on the
    genus entry as the genus credit leaves it. *)
Lemma creditCoord_score (m : list GenusCount.t) (g s hi w : Z) :
  fst (creditCoord m g s hi w)
  = fst (addHitToSpeciesMap (creditGenusEntry (findGenus m g) g hi w) s hi w).
Proof.
  induction m as [|e rest IH].
  - rewrite creditCoord_nil. reflexivity.
  - cbn [findGenus]. destruct (GenusCount.id e =? g) eqn:E.
    + apply Z.eqb_eq in E. rewrite (creditCoord_same _ _ _ _ _ _ E). reflexivity.
    + apply Z.eqb_neq in E. rewrite (creditCoord_other _ _ _ _ _ _ E).
      exact IH.
Qed.

(** ** One credit per round *)

Lemma creditCoord_genusStep (m : list GenusCount.t) (g s hi w g' : Z) :
  0 <= hi < 2 ^ 32 -> 0 <= w < 2 ^ 32 ->
  creditStep hi w (genusObs m g') (genusObs (snd (creditCoord m g s hi w)) g').
Proof.
  intros Hhi Hw. unfold creditStep, genusObs, genusCountOf, genusWeightOf.
  destruct (Z.eq_dec g' g) as [->|Hne].
  - rewrite creditCoord_find_same.
    destruct (addHitToSpeciesMap_fields
                (creditGenusEntry (findGenus m g) g hi w) s hi w)
      as (_ & Hc & Hwc & Hts).
    cbn [option_map]. rewrite Hc, Hwc, Hts.
    destruct (findGenus m g) as [e|]; cbn [creditGenusEntry option_map fst snd].
    + destruct (GenusCount.timeStamp e =? hi) eqn:T; [left; reflexivity|].
      right. apply Z.eqb_neq in T. split; [congruence|].
      simpl. rewrite (u32_small hi Hhi). reflexivity.
    + right. split; [discriminate|]. simpl.
      rewrite (u32_small hi Hhi), (u32_small w Hw). reflexivity.
  - rewrite (creditCoord_find_other _ _ _ _ _ _ Hne). left. reflexivity.
Qed.

Lemma creditCoord_speciesMapOf_same (m : list GenusCount.t) (g s hi w : Z) :
  speciesMapOf (snd (creditCoord m g s hi w)) g
  = GenusCount.speciesMap
      (snd (addHitToSpeciesMap (creditGenusEntry (findGenus m g) g hi w) s hi w)).
Proof. unfold speciesMapOf. rewrite creditCoord_find_same. reflexivity. Qed.

Lemma creditCoord_speciesStep (m : list GenusCount.t) (g s hi w g' s' : Z) :
  0 <= hi < 2 ^ 32 -> 0 <= w < 2 ^ 32 ->
  creditStep hi w (speciesObs m g' s')
             (speciesObs (snd (creditCoord m g s hi w)) g' s').
Proof.
  intros Hhi Hw. unfold creditStep, speciesObs, speciesCountOf, speciesWeightOf.
  destruct (Z.eq_dec g' g) as [->|Hne].
  - rewrite creditCoord_speciesMapOf_same.
    destruct (Z.eq_dec s' s) as [->|Hs].
    + rewrite addHitToSpeciesMap_same, creditGenusEntry_speciesMap.
      fold (speciesMapOf m g).
      destruct (findSpecies (speciesMapOf m g) s) as [x|];
        cbn [creditSpeciesEntry option_map fst snd].
      * destruct (SpeciesCount.timeStamp x =? hi) eqn:T; [left; reflexivity|].
        right. apply Z.eqb_neq in T. split; [congruence|].
        simpl. rewrite (u32_small hi Hhi). reflexivity.
      * right. split; [discriminate|]. simpl.
        rewrite (u32_small hi Hhi), (u32_small w Hw). reflexivity.
    + rewrite (addHitToSpeciesMap_other _ _ _ _ _ Hs), creditGenusEntry_speciesMap.
      fold (speciesMapOf m g). left. reflexivity.
  - unfold speciesMapOf. rewrite (creditCoord_find_other _ _ _ _ _ _ Hne).
    left. reflexivity.
Qed.

Lemma creditedAtMostOnce_step (hi w : Z) (o0 o o' : Obs) :
  creditedAtMostOnce hi w o0 o -> creditStep hi w o o' ->
  creditedAtMostOnce hi w o0 o'.
Proof.
  intros [->| ->] [->|[Hts ->]]; unfold creditedAtMostOnce; auto.
  exfalso. apply Hts. reflexivity.
Qed.

Lemma coordStep_genusMap (c : Classifier) (hi hit_len : Z) (coord : Coord)
      (st : State) :
  _genusMap (coordStep c hi hit_len coord st)
  = snd (creditCoord (_genusMap st)
                     (genusOf (u64 (extractID c (ref coord))))
                     (speciesOf (u64 (extractID c (ref coord))))
                     hi (addWeightOf hit_len)).
Proof.
  unfold coordStep.
  destruct (creditCoord _ _ _ _ _) as [newScore gm].
  destruct (newScore >? bestScore st);
    [|destruct (newScore >? secondBestScore st)]; reflexivity.
Qed.

Lemma coordLoop_genusObs (c : Classifier) (maxGenomeHitSize hi hit_len : Z)
      (g : Z) (o0 : Obs) (coords : list Coord) :
  0 <= hi < 2 ^ 32 ->
  forall st,
    creditedAtMostOnce hi (addWeightOf hit_len) o0 (genusObs (_genusMap st) g) ->
    creditedAtMostOnce hi (addWeightOf hit_len) o0
      (genusObs (_genusMap (coordLoop c maxGenomeHitSize hi hit_len coords st)) g).
Proof.
  intros Hhi. induction coords as [|coord rest IH]; intros st H; simpl; [exact H|].
  destruct (genomeHitCnt st <? maxGenomeHitSize); [|exact H].
  apply IH. rewrite coordStep_genusMap.
  eapply creditedAtMostOnce_step; [exact H|].
  apply creditCoord_genusStep; [exact Hhi|apply addWeightOf_range].
Qed.

Lemma coordLoop_speciesObs (c : Classifier) (maxGenomeHitSize hi hit_len : Z)
      (g s : Z) (o0 : Obs) (coords : list Coord) :
  0 <= hi < 2 ^ 32 ->
  forall st,
    creditedAtMostOnce hi (addWeightOf hit_len) o0 (speciesObs (_genusMap st) g s) ->
    creditedAtMostOnce hi (addWeightOf hit_len) o0
      (speciesObs (_genusMap (coordLoop c maxGenomeHitSize hi hit_len coords st)) g s).
Proof.
  intros Hhi. induction coords as [|coord rest IH]; intros st H; simpl; [exact H|].
  destruct (genomeHitCnt st <? maxGenomeHitSize); [|exact H].
  apply IH. rewrite coordStep_genusMap.
  eapply creditedAtMostOnce_step; [exact H|].
  apply creditCoord_speciesStep; [exact Hhi|apply addWeightOf_range].
Qed.

(** C3: within one round [hi], whatever coordinates are processed and
    however many of them map to one genus id (or to one species id under a
    genus), the count of that entry grows by at most 1 and its weighted
    count by at most one weight contribution: both stay as they were, or
    the count is incremented once and the weight of the round is added once
    (in 32-bit arithmetic). *)
Theorem round_credits_entry_at_most_once
        (c : Classifier) (maxGenomeHitSize hi hit_len : Z)
        (coords : list Coord) (st : State) :
  0 <= hi < 2 ^ 32 ->
  let w := addWeightOf hit_len in
  let m := _genusMap st in
  let m' := _genusMap (coordLoop c maxGenomeHitSize hi hit_len coords st) in
  (forall g,
      ((genusCountOf m' g = genusCountOf m g /\
        genusWeightOf m' g = genusWeightOf m g) \/
       (genusCountOf m' g = u32 (genusCountOf m g + 1) /\
        genusWeightOf m' g = u32 (genusWeightOf m g + w))) /\
      (0 <= genusCountOf m g -> genusCountOf m' g <= genusCountOf m g + 1) /\
      (0 <= genusWeightOf m g -> genusWeightOf m' g <= genusWeightOf m g + w)) /\
  (forall g s,
      ((speciesCountOf m' g s = speciesCountOf m g s /\
        speciesWeightOf m' g s = speciesWeightOf m g s) \/
       (speciesCountOf m' g s = u32 (speciesCountOf m g s + 1) /\
        speciesWeightOf m' g s = u32 (speciesWeightOf m g s + w))) /\
      (0 <= speciesCountOf m g s ->
       speciesCountOf m' g s <= speciesCountOf m g s + 1) /\
      (0 <= speciesWeightOf m g s ->
       speciesWeightOf m' g s <= speciesWeightOf m g s + w)).
Proof.
  intros Hhi w m m'.
  pose proof (addWeightOf_range hit_len) as Hw. fold w in Hw.
  split.
  - intros g.
    assert (H : creditedAtMostOnce hi w (genusObs m g) (genusObs m' g)).
    { apply coordLoop_genusObs; [exact Hhi|left; reflexivity]. }
    unfold creditedAtMostOnce, genusObs in H. cbn [fst snd] in H.
    destruct H as [H|H]; injection H as Hc Hwc _.
    + split; [left; split; assumption|]. split; intros; lia.
    + split; [right; split; assumption|].
      split; intros H0.
      * rewrite Hc. apply u32_le. lia.
      * rewrite Hwc. apply u32_le. lia.
  - intros g s.
    assert (H : creditedAtMostOnce hi w (speciesObs m g s) (speciesObs m' g s)).
    { apply coordLoop_speciesObs; [exact Hhi|left; reflexivity]. }
    unfold creditedAtMostOnce, speciesObs in H. cbn [fst snd] in H.
    destruct H as [H|H]; injection H as Hc Hwc _.
    + split; [left; split; assumption|]. split; intros; lia.
    + split; [right; split; assumption|].
      split; intros H0.
      * rewrite Hc. apply u32_le. lia.
      * rewrite Hwc. apply u32_le. lia.
Qed.

(** ** The score of a species credit *)

(** C4: [addHitToSpeciesMap] returns the weighted count of the genus entry
    when the species entry exists and is credited for the first time in the
    round (its time stamp differs from [hi]), the species' own new weight
    when the entry is created, and 0 when the entry exists and carries the
    stamp of the round already.  In [go] the genus entry is the one the
    genus credit of the same coordinate has just updated, so that the score
    of the first case is the weighted count of the genus after the update. *)
Theorem species_credit_score :
  (forall genusCount speciesID hi addWeight x,
      findSpecies (GenusCount.speciesMap genusCount) speciesID = Some x ->
      SpeciesCount.timeStamp x <> hi ->
      fst (addHitToSpeciesMap genusCount speciesID hi addWeight)
      = GenusCount.weightedCount genusCount) /\
  (forall genusCount speciesID hi addWeight,
      findSpecies (GenusCount.speciesMap genusCount) speciesID = None ->
      fst (addHitToSpeciesMap genusCount speciesID hi addWeight) = addWeight /\
      findSpecies
        (GenusCount.speciesMap
           (snd (addHitToSpeciesMap genusCount speciesID hi addWeight)))
        speciesID
      = Some (SpeciesCount.mk speciesID 1 addWeight (u32 hi))) /\
  (forall genusCount speciesID hi addWeight x,
      findSpecies (GenusCount.speciesMap genusCount) speciesID = Some x ->
      SpeciesCount.timeStamp x = hi ->
      fst (addHitToSpeciesMap genusCount speciesID hi addWeight) = 0) /\
  (forall genusMap genusID speciesID hi addWeight x,
      findSpecies (speciesMapOf genusMap genusID) speciesID = Some x ->
      SpeciesCount.timeStamp x <> hi ->
      fst (creditCoord genusMap genusID speciesID hi addWeight)
      = genusWeightOf (snd (creditCoord genusMap genusID speciesID hi addWeight))
                      genusID).
Proof.
  split; [|split; [|split]].
  - intros e s hi w x F T. rewrite addHitToSpeciesMap_score, F.
    apply Z.eqb_neq in T. rewrite T. reflexivity.
  - intros e s hi w F. split.
    + rewrite addHitToSpeciesMap_score, F. reflexivity.
    + rewrite addHitToSpeciesMap_same, F. reflexivity.
  - intros e s hi w x F T. rewrite addHitToSpeciesMap_score, F.
    apply Z.eqb_eq in T. rewrite T. reflexivity.
  - intros m g s hi w x F T.
    unfold genusWeightOf. rewrite creditCoord_find_same, creditCoord_score.
    destruct (addHitToSpeciesMap_fields
                (creditGenusEntry (findGenus m g) g hi w) s hi w)
      as (_ & _ & Hwc & _).
    rewrite Hwc, addHitToSpeciesMap_score, creditGenusEntry_speciesMap.
    fold (speciesMapOf m g). rewrite F.
    apply Z.eqb_neq in T. rewrite T. reflexivity.
Qed.

(** ** Ranges kept by the coordinate loop *)

Lemma findGenus_In (m : list GenusCount.t) (g : Z) (e : GenusCount.t) :
  findGenus m g = Some e -> In e m.
Proof.
  induction m as [|x rest IH]; simpl; [discriminate|].
  destruct (GenusCount.id x =? g).
  - intros H. injection H as <-. left. reflexivity.
  - intros H. right. apply IH. exact H.
Qed.

Lemma creditGenusEntry_range (o : option GenusCount.t) (g hi w : Z) :
  (forall e, o = Some e -> 0 <= GenusCount.weightedCount e < 2 ^ 32) ->
  0 <= w < 2 ^ 32 ->
  0 <= GenusCount.weightedCount (creditGenusEntry o g hi w) < 2 ^ 32.
Proof.
  intros Ho Hw. destruct o as [e|]; simpl; [|exact Hw].
  destruct (GenusCount.timeStamp e =? hi); simpl.
  - apply Ho. reflexivity.
  - apply u32_range.
Qed.

Lemma creditCoord_wf (m : list GenusCount.t) (g s hi w : Z) :
  wfGenusMap m -> 0 <= w < 2 ^ 32 ->
  wfGenusMap (snd (creditCoord m g s hi w)).
Proof.
  intros Hm Hw. unfold wfGenusMap in *.
  induction m as [|e rest IH].
  - rewrite creditCoord_nil. cbn [snd]. constructor; [|constructor].
    destruct (addHitToSpeciesMap_fields (creditGenusEntry None g hi w) s hi w)
      as (_ & _ & Hwc & _).
    rewrite Hwc. simpl. exact Hw.
  - inversion Hm as [|e0 r0 He Hrest]; subst.
    destruct (Z.eq_dec (GenusCount.id e) g) as [E|E].
    + rewrite (creditCoord_same _ _ _ _ _ _ E). cbn [snd].
      constructor; [|exact Hrest].
      destruct (addHitToSpeciesMap_fields
                  (creditGenusEntry (Some e) g hi w) s hi w)
        as (_ & _ & Hwc & _).
      rewrite Hwc. apply creditGenusEntry_range; [|exact Hw].
      intros e' He'. injection He' as <-. exact He.
    + rewrite (creditCoord_other _ _ _ _ _ _ E). cbn [snd].
      constructor; [exact He|]. apply IH. exact Hrest.
Qed.

Lemma creditCoord_score_range (m : list GenusCount.t) (g s hi w : Z) :
  wfGenusMap m -> 0 <= w < 2 ^ 32 ->
  0 <= fst (creditCoord m g s hi w) < 2 ^ 32.
Proof.
  intros Hm Hw. rewrite creditCoord_score, addHitToSpeciesMap_score.
  destruct (findSpecies _ s) as [x|]; [|exact Hw].
  destruct (SpeciesCount.timeStamp x =? hi); [lia|].
  apply creditGenusEntry_range; [|exact Hw].
  intros e He. apply findGenus_In in He.
  unfold wfGenusMap in Hm. rewrite Forall_forall in Hm. apply Hm. exact He.
Qed.

Lemma coordStep_scoreInv (c : Classifier) (hi hit_len : Z) (coord : Coord)
      (st : State) :
  scoreInv st -> scoreInv (coordStep c hi hit_len coord st).
Proof.
  intros (Hm & Hs & Hb). unfold scoreInv.
  rewrite coordStep_genusMap.
  split; [apply creditCoord_wf; [exact Hm|apply addWeightOf_range]|].
  pose proof (creditCoord_score_range (_genusMap st)
                (genusOf (u64 (extractID c (ref coord))))
                (speciesOf (u64 (extractID c (ref coord))))
                hi (addWeightOf hit_len) Hm (addWeightOf_range hit_len)) as Hr.
  unfold coordStep.
  destruct (creditCoord _ _ _ _ _) as [newScore gm]. cbn [fst] in Hr.
  destruct (newScore >? bestScore st) eqn:B.
  - cbn [bestScore secondBestScore]. apply Z.gtb_lt in B. lia.
  - destruct (newScore >? secondBestScore st) eqn:S2;
      cbn [bestScore secondBestScore].
    + rewrite Z.gtb_ltb in B. apply Z.ltb_ge in B. lia.
    + lia.
Qed.

Lemma coordStep_fields (c : Classifier) (hi hit_len : Z) (coord : Coord)
      (st : State) :
  let st' := coordStep c hi hit_len coord st in
  _genomeHits st' = _genomeHits st /\
  usedPortion st' = usedPortion st /\
  genomeHitCnt st' = sz (genomeHitCnt st + 1) /\
  walked st' = walked st.
Proof.
  unfold coordStep.
  destruct (creditCoord _ _ _ _ _) as [newScore gm].
  destruct (newScore >? bestScore st);
    [|destruct (newScore >? secondBestScore st)]; simpl; auto.
Qed.

Lemma coordLoop_inv (c : Classifier) (maxGenomeHitSize hi hit_len : Z)
      (coords : list Coord) :
  maxGenomeHitSize < 2 ^ 64 ->
  forall st,
    let st' := coordLoop c maxGenomeHitSize hi hit_len coords st in
    _genomeHits st' = _genomeHits st /\
    usedPortion st' = usedPortion st /\
    walked st' = walked st /\
    (scoreInv st -> scoreInv st') /\
    (0 <= genomeHitCnt st <= maxGenomeHitSize ->
     0 <= genomeHitCnt st' <= maxGenomeHitSize).
Proof.
  intros Hmax. induction coords as [|coord rest IH]; intros st; simpl.
  - auto.
  - destruct (genomeHitCnt st <? maxGenomeHitSize) eqn:G; [|auto].
    apply Z.ltb_lt in G.
    destruct (coordStep_fields c hi hit_len coord st) as (Hg & Hu & Hc & Hw).
    destruct (IH (coordStep c hi hit_len coord st)) as (Hg' & Hu' & Hw' & Hs' & Hc').
    split; [congruence|]. split; [congruence|]. split; [congruence|]. split.
    + intros Hs. apply Hs'. apply coordStep_scoreInv. exact Hs.
    + intros Hcnt. apply Hc'. rewrite Hc. unfold sz. rewrite u64_small; lia.
Qed.

Lemma coordLoop_scoreInv (c : Classifier) (maxGenomeHitSize hi hit_len : Z)
      (coords : list Coord) :
  forall st,
    scoreInv st -> scoreInv (coordLoop c maxGenomeHitSize hi hit_len coords st).
Proof.
  induction coords as [|coord rest IH]; intros st Hs; simpl; [exact Hs|].
  destruct (genomeHitCnt st <? maxGenomeHitSize); [|exact Hs].
  apply IH. apply coordStep_scoreInv. exact Hs.
Qed.

Lemma processHit_scoreInv (c : Classifier) (hit : ReadBWTHit.t)
      (maxGenomeHitSize hi : Z) (partialHit : BWTHit.t) (st : State) :
  scoreInv st -> scoreInv (processHit c hit maxGenomeHitSize hi partialHit st).
Proof.
  intros Hs. unfold processHit, resolveHit.
  apply coordLoop_scoreInv. exact Hs.
Qed.

Lemma processHit_fields (c : Classifier) (hit : ReadBWTHit.t)
      (maxGenomeHitSize hi : Z) (partialHit : BWTHit.t) (st : State) :
  maxGenomeHitSize < 2 ^ 64 ->
  let st' := processHit c hit maxGenomeHitSize hi partialHit st in
  _genomeHits st' = _genomeHits st /\
  usedPortion st' = sz (usedPortion st + sz (BWTHit.len partialHit)) /\
  (0 <= genomeHitCnt st <= maxGenomeHitSize ->
   0 <= genomeHitCnt st' <= maxGenomeHitSize).
Proof.
  intros Hmax. unfold processHit, resolveHit.
  match goal with
  | |- context [coordLoop c maxGenomeHitSize hi ?l ?cs ?s] =>
      destruct (coordLoop_inv c maxGenomeHitSize hi l cs Hmax s)
        as (Hg & Hu & _ & _ & Hc)
  end.
  cbn zeta. rewrite Hg, Hu. cbn [_genomeHits usedPortion genomeHitCnt] in *.
  auto.
Qed.

Lemma hitLoop_inv (c : Classifier) (hit : ReadBWTHit.t) (maxGenomeHitSize : Z)
      (last_round : bool) (total : Z) (partialHits : list BWTHit.t) :
  maxGenomeHitSize < 2 ^ 64 ->
  forall hi st,
    let st' := hitLoop c hit maxGenomeHitSize last_round total hi partialHits st in
    _genomeHits st' = _genomeHits st /\
    (scoreInv st -> scoreInv st') /\
    (0 <= genomeHitCnt st <= maxGenomeHitSize ->
     0 <= genomeHitCnt st' <= maxGenomeHitSize).
Proof.
  intros Hmax. induction partialHits as [|ph rest IH]; intros hi st; cbn zeta.
  - simpl. auto.
  - cbn [hitLoop].
    destruct (sz (BWTHit.len ph) <? _minHitLen c); [apply IH|].
    unfold resolveHit.
    destruct (getCoords c hit ph maxGenomeHitSize st) as [|x xs] eqn:Hco.
    + match goal with
      | |- context [hitLoop _ _ _ _ _ _ rest ?s] =>
          destruct (IH (hi + 1) s) as (Hg & Hs & Hc)
      end.
      cbn [_genomeHits genomeHitCnt] in *.
      split; [exact Hg|]. split; [|exact Hc].
      intros Hi. apply Hs. exact Hi.
    + pose proof (processHit_fields c hit maxGenomeHitSize hi ph st Hmax)
        as (Pg & _ & Pc).
      pose proof (processHit_scoreInv c hit maxGenomeHitSize hi ph st) as Ps.
      set (st3 := processHit c hit maxGenomeHitSize hi ph st) in *.
      destruct (genomeHitCnt st3 >=? maxGenomeHitSize); [auto|].
      destruct (last_round && scoreGapStop total st3); [auto|].
      destruct (IH (hi + 1) st3) as (Hg & Hs & Hc).
      split; [congruence|]. split; auto.
Qed.

(** ** Budget *)

Lemma getGenomeIdx_length (c : Classifier) (top bot : Z) (fw : bool) (maxelt : Z) :
  0 <= maxelt ->
  Z.of_nat (length (getGenomeIdx c top bot fw maxelt))
  = Z.min (idx (bot - top)) maxelt.
Proof.
  intros Hm. unfold getGenomeIdx. rewrite length_map, length_seq.
  apply Z2Nat.id. pose proof (u32_range (bot - top)). unfold idx. lia.
Qed.

(** C1, as the code has it: within each mate the number of coordinates
    accepted for crediting never exceeds the budget, and one resolution
    walks the whole range or as many positions as the budget minus the size
    of [_genomeHits], a list that is empty whenever [getCoords] runs: at
    most [khits] positions per partial hit. *)
Theorem budget_bounds_accepted_coordinates
        (c : Classifier) (khits : Z) (paired : bool) (rdi : Z)
        (hits : ReadBWTHit.t * ReadBWTHit.t) (st : State) :
  let st' := classifyMate c (idx khits) paired rdi hits st in
  0 <= genomeHitCnt st' <= idx khits /\
  _genomeHits st' = [] /\
  (forall hit partialHit s,
      _genomeHits s = [] ->
      Z.of_nat (length (getCoords c hit partialHit (idx khits) s))
      = Z.min (BWTHit.size partialHit) (idx khits) /\
      Z.of_nat (length (getCoords c hit partialHit (idx khits) s)) <= idx khits).
Proof.
  pose proof (u32_range khits) as Hk. fold (idx khits) in Hk.
  assert (Hmax : idx khits < 2 ^ 64) by lia.
  cbn zeta. split; [|split].
  - unfold classifyMate.
    destruct (getForwardOrReverseHit c hits (0, 0)) as [[fwi hit] totals].
    match goal with
    | |- context [hitLoop c hit (idx khits) ?lr ?t 0 ?l ?s] =>
        destruct (hitLoop_inv c hit (idx khits) lr t l Hmax 0 s) as (_ & _ & Hc)
    end.
    apply Hc. simpl. lia.
  - unfold classifyMate.
    destruct (getForwardOrReverseHit c hits (0, 0)) as [[fwi hit] totals].
    match goal with
    | |- context [hitLoop c hit (idx khits) ?lr ?t 0 ?l ?s] =>
        destruct (hitLoop_inv c hit (idx khits) lr t l Hmax 0 s) as (Hg & _ & _)
    end.
    rewrite Hg. reflexivity.
  - intros hit ph s Hs.
    assert (E : Z.of_nat (length (getCoords c hit ph (idx khits) s))
                = Z.min (BWTHit.size ph) (idx khits)).
    { unfold getCoords. rewrite Hs. cbn [length Z.of_nat].
      rewrite Z.sub_0_r.
      assert (Hid : idx (sz (idx khits)) = idx khits).
      { unfold sz, idx. rewrite u32_u64. apply u32_small. apply u32_range. }
      rewrite Hid. rewrite getGenomeIdx_length by lia. reflexivity. }
    split; [exact E|]. rewrite E. lia.
Qed.

(** ** Early termination *)

Lemma scoreGapStop_spec (total : Z) (st : State) :
  0 <= secondBestScore st < 2 ^ 32 ->
  - 2 ^ 32 < total - usedPortion st - 15 < 2 ^ 32 ->
  scoreGapStop total st
  = (bestScore st - secondBestScore st
     >? (total - usedPortion st - 15) * (total - usedPortion st - 15)).
Proof.
  intros Hs Hd. unfold scoreGapStop, sz.
  rewrite u64_sub_mod, u64_mul_mod.
  set (d := total - usedPortion st - 15) in *.
  assert (Hsq : 0 <= d * d < 2 ^ 64 - 2 ^ 32) by nia.
  rewrite (u64_small (d * d)) by lia.
  rewrite u64_small by lia.
  rewrite !Z.gtb_ltb.
  destruct (Z.ltb_spec (secondBestScore st + d * d) (bestScore st));
    destruct (Z.ltb_spec (d * d) (bestScore st - secondBestScore st));
    (reflexivity || lia).
Qed.

(** C2: on the final mate, when a partial hit has been processed and the
    best score exceeds the second best by more than the square of the
    remaining qualifying length minus 15, the loop over partial hits ends
    with the state that hit left: no later hit is resolved or credited.
    The remaining length may be below 15; the unsigned difference wraps
    there and its square is the square of the true difference. *)
Theorem score_gap_stops_scan
        (c : Classifier) (hit : ReadBWTHit.t) (maxGenomeHitSize total hi : Z)
        (partialHit : BWTHit.t) (rest : list BWTHit.t) (st : State) :
  scoreInv st ->
  _minHitLen c <= sz (BWTHit.len partialHit) ->
  getCoords c hit partialHit maxGenomeHitSize st <> [] ->
  let st3 := processHit c hit maxGenomeHitSize hi partialHit st in
  let remaining := total - usedPortion st3 in
  0 <= remaining < 2 ^ 32 ->
  bestScore st3 - secondBestScore st3 > (remaining - 15) * (remaining - 15) ->
  hitLoop c hit maxGenomeHitSize true total hi (partialHit :: rest) st = st3.
Proof.
  intros Hinv Hlen Hco st3 remaining Hrem Hgap.
  cbn [hitLoop].
  destruct (Z.ltb_spec (sz (BWTHit.len partialHit)) (_minHitLen c)) as [Hlt|_];
    [lia|].
  unfold resolveHit.
  destruct (getCoords c hit partialHit maxGenomeHitSize st) as [|x xs];
    [congruence|].
  fold st3.
  destruct (genomeHitCnt st3 >=? maxGenomeHitSize); [reflexivity|].
  assert (Hstop : scoreGapStop total st3 = true).
  { pose proof (processHit_scoreInv c hit maxGenomeHitSize hi partialHit st Hinv)
      as (_ & Hs & Hb).
    fold st3 in Hs, Hb.
    rewrite scoreGapStop_spec by (subst remaining; lia).
    apply Z.gtb_lt. subst remaining. lia. }
  rewrite Hstop. reflexivity.
Qed.

(** The range hypothesis of the theorem above holds in every state [go]
    reaches. *)
Lemma goState_scoreInv (c : Classifier) (khits : Z) (paired : bool)
      (hits : Z -> ReadBWTHit.t * ReadBWTHit.t) :
  scoreInv (goState c khits paired hits).
Proof.
  pose proof (u32_range khits) as Hk. fold (idx khits) in Hk.
  assert (Hmax : idx khits < 2 ^ 64) by lia.
  assert (Hmate : forall rdi h st,
             scoreInv st -> scoreInv (classifyMate c (idx khits) paired rdi h st)).
  { intros rdi h st Hs. unfold classifyMate.
    destruct (getForwardOrReverseHit c h (0, 0)) as [[fwi hit] totals].
    match goal with
    | |- context [hitLoop c hit (idx khits) ?lr ?t 0 ?l ?s] =>
        destruct (hitLoop_inv c hit (idx khits) lr t l Hmax 0 s) as (_ & Hi & _)
    end.
    apply Hi. exact Hs. }
  assert (H0 : scoreInv initState).
  { unfold scoreInv, initState, wfGenusMap. simpl. split; [constructor|lia]. }
  unfold goState. destruct paired; auto.
Qed.

(** ** Reporting *)

Lemma reportGenus_length (g : GenusCount.t) :
  length (reportGenus g) = length (GenusCount.speciesMap g).
Proof. unfold reportGenus. apply length_map. Qed.

Lemma reportAll_length (m : list GenusCount.t) :
  length (reportAll m) = reportOffset m (length m).
Proof.
  unfold reportOffset. rewrite firstn_all.
  induction m as [|g rest IH]; simpl; [reflexivity|].
  rewrite length_app, reportGenus_length, IH. reflexivity.
Qed.

Lemma reportOffset_succ (m : list GenusCount.t) (gi : nat) (g : GenusCount.t) :
  nth_error m gi = Some g ->
  reportOffset m (S gi)
  = (reportOffset m gi + length (GenusCount.speciesMap g))%nat.
Proof.
  unfold reportOffset. revert gi.
  induction m as [|x rest IH]; intros [|gi] H; simpl in H; try discriminate.
  - injection H as <-. simpl. lia.
  - specialize (IH gi H). simpl in *. lia.
Qed.

Lemma reportAll_nth (m : list GenusCount.t) :
  forall gi mi g s,
    nth_error m gi = Some g ->
    nth_error (GenusCount.speciesMap g) mi = Some s ->
    nth_error (reportAll m) (reportOffset m gi + mi)
    = Some (mkReport 0
              (mkAlnRes (u32 (GenusCount.weightedCount g
                              + SpeciesCount.weightedCount s))
                        (SpeciesCount.id s) (GenusCount.id g))).
Proof.
  induction m as [|x rest IH]; intros [|gi] mi g s Hg Hs; simpl in Hg;
    try discriminate.
  - injection Hg as <-. unfold reportOffset. simpl.
    rewrite nth_error_app1.
    + unfold reportGenus. rewrite nth_error_map, Hs. reflexivity.
    + rewrite reportGenus_length. apply nth_error_Some. congruence.
  - assert (E : (reportOffset (x :: rest) (S gi) + mi
                 = length (reportGenus x) + (reportOffset rest gi + mi))%nat).
    { unfold reportOffset. simpl. rewrite reportGenus_length. lia. }
    rewrite E. cbn [reportAll flat_map].
    rewrite nth_error_app2 by lia.
    replace (length (reportGenus x) + (reportOffset rest gi + mi)
             - length (reportGenus x))%nat
      with (reportOffset rest gi + mi)%nat by lia.
    fold (reportAll rest).
    apply IH; assumption.
Qed.

(** C5, as the code has it: after the loop over mates the sink receives one
    report for every species entry of every genus entry, in map order, with
    the species id, the genus id, and as score the sum of the two weighted
    counts formed in 32-bit unsigned arithmetic; it is the plain sum as
    long as that sum stays below 2^32. *)
Theorem one_report_per_species_entry
        (c : Classifier) (khits : Z) (paired : bool)
        (hits : Z -> ReadBWTHit.t * ReadBWTHit.t) :
  let m := _genusMap (goState c khits paired hits) in
  let reports := snd (go c khits paired hits) in
  length reports = reportOffset m (length m) /\
  (forall gi g,
      nth_error m gi = Some g ->
      reportOffset m (S gi)
      = (reportOffset m gi + length (GenusCount.speciesMap g))%nat) /\
  (forall gi mi g s,
      nth_error m gi = Some g ->
      nth_error (GenusCount.speciesMap g) mi = Some s ->
      exists r,
        nth_error reports (reportOffset m gi + mi) = Some r /\
        speciesID (res r) = SpeciesCount.id s /\
        genusID (res r) = GenusCount.id g /\
        score (res r)
        = (GenusCount.weightedCount g + SpeciesCount.weightedCount s) mod 2 ^ 32 /\
        (0 <= GenusCount.weightedCount g + SpeciesCount.weightedCount s < 2 ^ 32 ->
         score (res r)
         = GenusCount.weightedCount g + SpeciesCount.weightedCount s)).
Proof.
  cbn zeta. unfold go. cbn [snd].
  split; [apply reportAll_length|].
  split; [intros gi g; apply reportOffset_succ|].
  intros gi mi g s Hg Hs.
  eexists. split; [apply (reportAll_nth _ gi mi g s Hg Hs)|].
  cbn [res speciesID genusID score].
  repeat split.
  intros Hsum. apply u32_small. exact Hsum.
Qed.

(** C10: every report of a classification call carries mate index 0,
    for unpaired reads and for pairs alike. *)
Theorem reports_carry_mate_zero
        (c : Classifier) (khits : Z) (paired : bool)
        (hits : Z -> ReadBWTHit.t * ReadBWTHit.t) :
  Forall (fun r => mate r = 0) (snd (go c khits paired hits)).
Proof.
  unfold go. cbn [snd]. apply Forall_forall. intros r Hr.
  unfold reportAll in Hr. apply in_flat_map in Hr.
  destruct Hr as (g & _ & Hr). unfold reportGenus in Hr.
  apply in_map_iff in Hr. destruct Hr as (s & <- & _). reflexivity.
Qed.

(** ** Weight of a partial hit *)

(** C8, as the code has it: the weight handed to the two credit functions
    for a coordinate of a hit of length [L] is the square of [L - 15]
    reduced modulo 2^32; it is the exact square for [16 <= L <= 65550], where
    the square fits 32 bits.  A partial hit shorter than [_minHitLen] is
    passed over: the loop goes on to the next hit with the state unchanged. *)
Theorem hit_weight_is_square_mod_2_32 :
  (forall L, addWeightOf L = ((L - 15) * (L - 15)) mod 2 ^ 32) /\
  (forall L, 16 <= L <= 65550 -> addWeightOf L = (L - 15) * (L - 15)) /\
  (forall c hi L coord st,
      16 <= L <= 65550 ->
      _genusMap (coordStep c hi L coord st)
      = snd (creditCoord (_genusMap st)
                         (genusOf (u64 (extractID c (ref coord))))
                         (speciesOf (u64 (extractID c (ref coord))))
                         hi ((L - 15) * (L - 15)))) /\
  (forall c hit maxGenomeHitSize last_round total hi partialHit rest st,
      sz (BWTHit.len partialHit) < _minHitLen c ->
      hitLoop c hit maxGenomeHitSize last_round total hi (partialHit :: rest) st
      = hitLoop c hit maxGenomeHitSize last_round total (hi + 1) rest st).
Proof.
  assert (Hexact : forall L, 16 <= L <= 65550 -> addWeightOf L = (L - 15) * (L - 15)).
  { intros L HL. rewrite addWeightOf_mod. apply Z.mod_small. nia. }
  split; [exact addWeightOf_mod|]. split; [exact Hexact|]. split.
  - intros c hi L coord st HL. rewrite coordStep_genusMap, (Hexact L HL).
    reflexivity.
  - intros c hit mx lr total hi ph rest st Hlt. cbn [hitLoop].
    apply Z.ltb_lt in Hlt. rewrite Hlt. reflexivity.
Qed.

(** ** Stepping of the seed search *)

(** C6, as the code has it: after a step that leaves the strand not done,
    with [L] the length of the most recent partial hit, the scan offset is
    retreated by 10 when [10 < L < _minHitLen], advanced by 1 when [10 < L]
    and [L >= _minHitLen], and left where the search put it when [L <= 10]
    (offsets in [index_t] arithmetic). *)
Theorem search_step_offset
        (c : Classifier) (rdlen : Z) (fw : bool) (hit : ReadBWTHit.t)
        (front : list BWTHit.t) (lastHit : BWTHit.t) :
  let searched := partialSearch c fw hit in
  let L := BWTHit.len lastHit in
  ReadBWTHit.done searched = false ->
  ReadBWTHit._partialHits searched = front ++ [lastHit] ->
  exists done cur hit',
    searchStep c rdlen fw hit = Some (done, cur, hit') /\
    cur = sz (ReadBWTHit.cur searched) /\
    (10 < L -> L < _minHitLen c ->
     ReadBWTHit.cur hit' = idx (ReadBWTHit.cur searched - 10)) /\
    (10 < L -> _minHitLen c <= L ->
     ReadBWTHit.cur hit' = idx (ReadBWTHit.cur searched + 1)) /\
    (L <= 10 -> ReadBWTHit.cur hit' = ReadBWTHit.cur searched).
Proof.
  intros searched L Hdone Hhits.
  unfold searchStep. fold searched. rewrite Hdone, Hhits, rev_unit.
  fold L. unfold increment.
  destruct (Z.gtb_spec L 10) as [H10|H10].
  - destruct (Z.ltb_spec L (_minHitLen c)) as [Hm|Hm].
    + match goal with
      | |- context [if ?b then _ else _] => destruct b
      end; do 3 eexists; (split; [reflexivity|]); cbn; repeat split; intros; lia.
    + match goal with
      | |- context [if ?b then _ else _] => destruct b
      end; do 3 eexists; (split; [reflexivity|]); cbn; repeat split; intros; lia.
  - match goal with
    | |- context [if ?b then _ else _] => destruct b
    end; do 3 eexists; (split; [reflexivity|]); cbn; repeat split; intros; lia.
Qed.

(** ** Strand selection *)

Lemma qualifyingLens_cons (minHitLen : Z) (h : BWTHit.t) (rest : list BWTHit.t) :
  qualifyingLens minHitLen (h :: rest)
  = if BWTHit.len h <? minHitLen then qualifyingLens minHitLen rest
    else BWTHit.len h :: qualifyingLens minHitLen rest.
Proof.
  unfold qualifyingLens. simpl.
  destruct (Z.ltb_spec (BWTHit.len h) minHitLen) as [H|H];
    destruct (Z.leb_spec minHitLen (BWTHit.len h)) as [H'|H'];
    try lia; reflexivity.
Qed.

Lemma qualifyingLens_nonneg (minHitLen : Z) (partialHits : list BWTHit.t) :
  Forall (fun h => 0 <= BWTHit.len h) partialHits ->
  Forall (fun l => 0 <= l) (qualifyingLens minHitLen partialHits).
Proof.
  induction 1 as [|h rest Hh _ IH]; [constructor|].
  rewrite qualifyingLens_cons.
  destruct (BWTHit.len h <? minHitLen); [exact IH|constructor; assumption].
Qed.

Lemma qualifyingLens_length (minHitLen : Z) (partialHits : list BWTHit.t) :
  (length (qualifyingLens minHitLen partialHits) <= length partialHits)%nat.
Proof.
  induction partialHits as [|h rest IH]; [apply Nat.le_refl|].
  rewrite qualifyingLens_cons.
  destruct (BWTHit.len h <? minHitLen); simpl; lia.
Qed.

Lemma sumZ_nonneg (l : list Z) : Forall (fun x => 0 <= x) l -> 0 <= sumZ l.
Proof. induction 1; simpl; lia. Qed.

(** Without wrap-around the loop computes the sum and the number of the
    qualifying lengths. *)
Lemma sumHitLength_spec (minHitLen : Z) (partialHits : list BWTHit.t) :
  Forall (fun h => 0 <= BWTHit.len h) partialHits ->
  forall total numHits,
    0 <= total -> 0 <= numHits ->
    total + sumZ (qualifyingLens minHitLen partialHits) < 2 ^ 32 ->
    numHits + Z.of_nat (length (qualifyingLens minHitLen partialHits)) < 2 ^ 32 ->
    sumHitLength minHitLen partialHits total numHits
    = (total + sumZ (qualifyingLens minHitLen partialHits),
       numHits + Z.of_nat (length (qualifyingLens minHitLen partialHits))).
Proof.
  induction 1 as [|h rest Hh Hrest IH]; intros total numHits Ht Hn Hsum Hcnt.
  - simpl. f_equal; lia.
  - rewrite qualifyingLens_cons in *. cbn [sumHitLength].
    destruct (BWTHit.len h <? minHitLen).
    + apply IH; assumption.
    + pose proof (sumZ_nonneg _ (qualifyingLens_nonneg minHitLen rest Hrest)) as Hq.
      cbn [sumZ fold_right length] in *. fold (sumZ (qualifyingLens minHitLen rest)) in *.
      unfold idx. rewrite !u32_small by lia.
      rewrite IH by lia. f_equal; lia.
Qed.

Lemma avgHitLength_spec (minHitLen : Z) (partialHits : list BWTHit.t) :
  Forall (fun h => 0 <= BWTHit.len h) partialHits ->
  sumZ (qualifyingLens minHitLen partialHits) < 2 ^ 32 ->
  avgHitLength (sumZ (qualifyingLens minHitLen partialHits))
               (Z.of_nat (length (qualifyingLens minHitLen partialHits)))
  = specAvgHitLength minHitLen partialHits.
Proof.
  intros Hlen Hsum. unfold avgHitLength, specAvgHitLength.
  pose proof (sumZ_nonneg _ (qualifyingLens_nonneg minHitLen partialHits Hlen)) as Hq.
  destruct (qualifyingLens minHitLen partialHits) as [|l q] eqn:E; [reflexivity|].
  set (n := Z.of_nat (length (l :: q))).
  assert (Hn : 0 < n) by (subst n; simpl; lia).
  destruct (Z.gtb_spec n 0); [|lia].
  unfold idx. apply u32_small.
  split; [apply Z.div_pos; lia|].
  apply Z.le_lt_trans with (m := sumZ (l :: q)); [|exact Hsum].
  apply Z.div_le_upper_bound; nia.
Qed.

(** C7: strand selection computes for each strand the integer average of the
    lengths of the partial hits of length at least [_minHitLen], 0 when there
    is none, and returns the forward hit set exactly when the forward
    average is strictly greater; on equal averages it returns the reverse
    hit set.  The totals are those of an [index_t] that does not wrap. *)
Theorem strand_with_greater_average_selected
        (c : Classifier) (hits : ReadBWTHit.t * ReadBWTHit.t) :
  let fwHits := ReadBWTHit._partialHits (fst hits) in
  let rcHits := ReadBWTHit._partialHits (snd hits) in
  let avgFw := specAvgHitLength (_minHitLen c) fwHits in
  let avgRc := specAvgHitLength (_minHitLen c) rcHits in
  Forall (fun h => 0 <= BWTHit.len h) fwHits ->
  Forall (fun h => 0 <= BWTHit.len h) rcHits ->
  sumZ (qualifyingLens (_minHitLen c) fwHits) < 2 ^ 32 ->
  sumZ (qualifyingLens (_minHitLen c) rcHits) < 2 ^ 32 ->
  Z.of_nat (length fwHits) < 2 ^ 32 ->
  Z.of_nat (length rcHits) < 2 ^ 32 ->
  exists fwi,
    getForwardOrReverseHit c hits (0, 0)
    = (fwi, if fwi =? 0 then fst hits else snd hits,
       (sumZ (qualifyingLens (_minHitLen c) fwHits),
        sumZ (qualifyingLens (_minHitLen c) rcHits))) /\
    (fwi = 0 <-> avgFw > avgRc) /\
    (fwi = 1 <-> avgFw <= avgRc).
Proof.
  intros fwHits rcHits avgFw avgRc Hf Hr Sf Sr Lf Lr.
  pose proof (qualifyingLens_length (_minHitLen c) fwHits) as Qf.
  pose proof (qualifyingLens_length (_minHitLen c) rcHits) as Qr.
  unfold getForwardOrReverseHit. cbn [fst snd]. fold fwHits rcHits.
  rewrite (sumHitLength_spec _ _ Hf) by lia.
  rewrite (sumHitLength_spec _ _ Hr) by lia.
  rewrite !Z.add_0_l.
  rewrite (avgHitLength_spec _ _ Hf Sf), (avgHitLength_spec _ _ Hr Sr).
  fold avgFw avgRc.
  destruct (Z.gtb_spec avgFw avgRc) as [G|G].
  - exists 0. split; [reflexivity|]. split; split; intros; lia.
  - exists 1. split; [reflexivity|]. split; split; intros; lia.
Qed.

(** ** The classifier on sample reads *)

Ltac by_computation :=
  vm_compute; repeat split; try reflexivity; try discriminate; try lia.

(** The scenario of the specification: two reports, both under genus 1,
    species 100 and 200 once each, every count credited once with 625. *)
Example scenario_reports :
  go (sampleClassifier 22 twoSpecies) 5 false scenarioHits
  = (0, [mkReport 0 (mkAlnRes 1250 100 1); mkReport 0 (mkAlnRes 1250 200 1)]).
Proof. reflexivity. Qed.

(** A read without a partial hit of length 22 leaves the genus map empty
    and reports nothing. *)
Example no_qualifying_hit :
  _genusMap (goState (sampleClassifier 22 oneTaxon) 5 false (oneHitOfLength 21)) = [] /\
  go (sampleClassifier 22 oneTaxon) 5 false (oneHitOfLength 21) = (0, []).
Proof. split; reflexivity. Qed.

(** C1, counterexample: with budget 5 and two partial hits of three
    positions each, the second resolution is handed the full budget again
    and six positions are walked. *)
Lemma walk_exceeds_budget :
  walked (goState (sampleClassifier 22 oneTaxon) 5 false twoRangesOfThree) = 6 /\
  ~ walked (goState (sampleClassifier 22 oneTaxon) 5 false twoRangesOfThree) <= 5.
Proof. split; [reflexivity|]. vm_compute. intros H. apply H. reflexivity. Qed.

Lemma budget_bounds_accepted_coordinates_witness :
  _genomeHits initState = [] /\
  Z.of_nat (length (getCoords (sampleClassifier 22 oneTaxon)
                              (searchedHits true []) (BWTHit.mk 0 9 30 0)
                              (idx 5) initState)) <= idx 5.
Proof.
  split; [reflexivity|].
  apply (proj2 (proj2 (budget_bounds_accepted_coordinates
                         (sampleClassifier 22 oneTaxon) 5 false 0
                         (twoRangesOfThree 0) initState))).
  reflexivity.
Defined.

Lemma score_gap_stops_scan_witness :
  let c := sampleClassifier 10 oneTaxon in
  let hit := searchedHits true [] in
  let first := BWTHit.mk 0 1 40 0 in
  let st3 := processHit c hit 5 0 first initState in
  50 - usedPortion st3 = 10 /\
  bestScore st3 - secondBestScore st3 > (10 - 15) * (10 - 15) /\
  hitLoop c hit 5 true 50 0 [first; BWTHit.mk 5 6 10 40] initState = st3.
Proof.
  cbn zeta. split; [reflexivity|]. split; [reflexivity|].
  apply (score_gap_stops_scan (sampleClassifier 10 oneTaxon)
                              (searchedHits true []) 5 50 0).
  - unfold scoreInv, wfGenusMap, initState. simpl.
    split; [constructor|lia].
  - by_computation.
  - by_computation.
  - by_computation.
  - by_computation.
Defined.

Lemma round_credits_entry_at_most_once_witness :
  let c := sampleClassifier 22 oneTaxon in
  let coords := [mkCoord 0 0 true; mkCoord 1 0 true; mkCoord 2 0 true] in
  let m' := _genusMap (coordLoop c 5 0 40 coords initState) in
  0 <= 0 < 2 ^ 32 /\
  genusCountOf m' 3 = 1 /\ genusWeightOf m' 3 = 625 /\
  genusCountOf m' 3 <= genusCountOf [] 3 + 1 /\
  speciesWeightOf m' 3 7 <= speciesWeightOf [] 3 7 + addWeightOf 40.
Proof.
  cbn zeta. split; [lia|]. split; [reflexivity|]. split; [reflexivity|].
  assert (Hhi : 0 <= 0 < 2 ^ 32) by lia.
  pose proof (round_credits_entry_at_most_once
                (sampleClassifier 22 oneTaxon) 5 0 40
                [mkCoord 0 0 true; mkCoord 1 0 true; mkCoord 2 0 true]
                initState Hhi) as [Hg Hs].
  split.
  - apply (proj1 (proj2 (Hg 3))). by_computation.
  - apply (proj2 (proj2 (Hs 3 7))). by_computation.
Defined.

Lemma species_credit_score_witness :
  let credited := GenusCount.mk 3 2 674 1 [SpeciesCount.mk 7 1 625 0] in
  findSpecies (GenusCount.speciesMap credited) 7 = Some (SpeciesCount.mk 7 1 625 0) /\
  SpeciesCount.timeStamp (SpeciesCount.mk 7 1 625 0) <> 1 /\
  fst (addHitToSpeciesMap credited 7 1 49) = 674 /\
  fst (addHitToSpeciesMap credited 8 1 49) = 49 /\
  fst (addHitToSpeciesMap credited 7 0 49) = 0 /\
  fst (creditCoord [GenusCount.mk 3 1 625 0 [SpeciesCount.mk 7 1 625 0]] 3 7 1 49)
  = 674.
Proof.
  cbn zeta.
  destruct species_credit_score as (Hfirst & Hnew & Hagain & Hpost).
  split; [reflexivity|]. split; [discriminate|].
  split; [|split; [|split]].
  - apply (Hfirst (GenusCount.mk 3 2 674 1 [SpeciesCount.mk 7 1 625 0]) 7 1 49
                  (SpeciesCount.mk 7 1 625 0)); [reflexivity|discriminate].
  - apply (Hnew (GenusCount.mk 3 2 674 1 [SpeciesCount.mk 7 1 625 0]) 8 1 49).
    reflexivity.
  - apply (Hagain (GenusCount.mk 3 2 674 1 [SpeciesCount.mk 7 1 625 0]) 7 0 49
                  (SpeciesCount.mk 7 1 625 0)); reflexivity.
  - rewrite (Hpost [GenusCount.mk 3 1 625 0 [SpeciesCount.mk 7 1 625 0]] 3 7 1 49
                   (SpeciesCount.mk 7 1 625 0)); [reflexivity|reflexivity|discriminate].
Defined.

(** C5, counterexample: a single hit of length 46356 credits genus and
    species with 46341 squared each; the reported score is the sum of the
    two reduced modulo 2^32. *)
Lemma reported_score_wraps :
  let c := sampleClassifier 22 oneTaxon in
  _genusMap (goState c 5 false (oneHitOfLength 46356))
  = [GenusCount.mk 3 1 2147488281 0 [SpeciesCount.mk 7 1 2147488281 0]] /\
  snd (go c 5 false (oneHitOfLength 46356)) = [mkReport 0 (mkAlnRes 9266 7 3)] /\
  9266 <> 2147488281 + 2147488281.
Proof. by_computation. Qed.

Lemma one_report_per_species_entry_witness :
  let c := sampleClassifier 22 twoSpecies in
  let m := _genusMap (goState c 5 false scenarioHits) in
  let g := GenusCount.mk 1 1 625 0
             [SpeciesCount.mk 100 1 625 0; SpeciesCount.mk 200 1 625 0] in
  nth_error m 0 = Some g /\
  nth_error (GenusCount.speciesMap g) 1 = Some (SpeciesCount.mk 200 1 625 0) /\
  exists r,
    nth_error (snd (go c 5 false scenarioHits)) (reportOffset m 0 + 1) = Some r /\
    speciesID (res r) = 200 /\ genusID (res r) = 1 /\ score (res r) = 1250.
Proof.
  cbn zeta. split; [reflexivity|]. split; [reflexivity|].
  destruct (one_report_per_species_entry (sampleClassifier 22 twoSpecies) 5 false
              scenarioHits) as (_ & _ & H).
  destruct (H 0%nat 1%nat
              (GenusCount.mk 1 1 625 0
                 [SpeciesCount.mk 100 1 625 0; SpeciesCount.mk 200 1 625 0])
              (SpeciesCount.mk 200 1 625 0))
    as (r & Hr & Hsp & Hge & _ & Hsc); [reflexivity|reflexivity|].
  exists r. split; [exact Hr|]. split; [exact Hsp|]. split; [exact Hge|].
  apply Hsc. by_computation.
Defined.

(** C6, counterexample: after a step that finds a partial hit of length 5
    the strand is not done, and its scan offset is still 5, not 6. *)
Lemma short_hit_leaves_offset :
  let searched := shortHitSearch true (searchedHits true []) in
  ReadBWTHit.done searched = false /\
  ReadBWTHit.cur searched = 5 /\
  searchStep shortHitClassifier 100 true (searchedHits true [])
  = Some (false, 5, searched) /\
  ReadBWTHit.cur searched <> 5 + 1.
Proof. by_computation. Qed.

Lemma search_step_offset_witness :
  let searched := shortHitSearch true (searchedHits true []) in
  ReadBWTHit.done searched = false /\
  ReadBWTHit._partialHits searched = [] ++ [BWTHit.mk 0 9 5 0] /\
  exists done cur hit',
    searchStep shortHitClassifier 100 true (searchedHits true [])
    = Some (done, cur, hit') /\
    ReadBWTHit.cur hit' = 5.
Proof.
  cbn zeta. split; [reflexivity|]. split; [reflexivity|].
  destruct (search_step_offset shortHitClassifier 100 true (searchedHits true [])
              [] (BWTHit.mk 0 9 5 0))
    as (done & cur & hit' & Hstep & _ & _ & _ & Hshort);
    [reflexivity|reflexivity|].
  exists done, cur, hit'. split; [exact Hstep|].
  rewrite Hshort; [reflexivity|by_computation].
Defined.

Lemma strand_with_greater_average_selected_witness :
  specAvgHitLength 22 (ReadBWTHit._partialHits (fst strands30and45)) = 30 /\
  specAvgHitLength 22 (ReadBWTHit._partialHits (snd strands30and45)) = 45 /\
  exists fwi,
    getForwardOrReverseHit (sampleClassifier 22 oneTaxon) strands30and45 (0, 0)
    = (fwi, if fwi =? 0 then fst strands30and45 else snd strands30and45, (30, 90)) /\
    fwi = 1.
Proof.
  split; [reflexivity|]. split; [reflexivity|].
  destruct (strand_with_greater_average_selected
              (sampleClassifier 22 oneTaxon) strands30and45)
    as (fwi & Hsel & _ & Hrc).
  - repeat constructor; by_computation.
  - repeat constructor; by_computation.
  - by_computation.
  - by_computation.
  - by_computation.
  - by_computation.
  - exists fwi. split; [exact Hsel|]. apply Hrc. by_computation.
Defined.

(** C8, counterexample: for a partial hit of length 65551 the difference
    to 15 is 2^16 and the weight is 0, not 2^32. *)
Lemma weight_of_long_hit_wraps :
  22 <= 65551 /\ 16 <= 65551 /\
  addWeightOf 65551 = 0 /\
  addWeightOf 65551 <> (65551 - 15) * (65551 - 15).
Proof. by_computation. Qed.

Lemma hit_weight_is_square_mod_2_32_witness :
  16 <= 40 <= 65550 /\ addWeightOf 40 = 625 /\
  sz (BWTHit.len (BWTHit.mk 2 3 12 40)) < _minHitLen (sampleClassifier 22 oneTaxon) /\
  hitLoop (sampleClassifier 22 oneTaxon) (fst strands30and45) 5 true 30 0
          [BWTHit.mk 2 3 12 40; BWTHit.mk 0 1 30 0] initState
  = hitLoop (sampleClassifier 22 oneTaxon) (fst strands30and45) 5 true 30 (0 + 1)
            [BWTHit.mk 0 1 30 0] initState.
Proof.
  destruct hit_weight_is_square_mod_2_32 as (_ & Hexact & _ & Hskip).
  split; [lia|]. split; [|split].
  - rewrite (Hexact 40); [reflexivity|lia].
  - by_computation.
  - apply Hskip. by_computation.
Defined.

(** C9: with [_minHitLen] 15 a partial hit of length 15 qualifies and is
    credited with weight 0, and with the default [_minHitLen] 22 so is a
    partial hit of length 65551: in both runs the genus entry reaches the
    report loop with weighted count 0, against the assertion that opens
    that loop. *)
Theorem genus_entry_with_zero_weight :
  _genusMap (goState (sampleClassifier 15 oneTaxon) 5 false (oneHitOfLength 15))
  = [GenusCount.mk 3 1 0 0 [SpeciesCount.mk 7 1 0 0]] /\
  snd (go (sampleClassifier 15 oneTaxon) 5 false (oneHitOfLength 15))
  = [mkReport 0 (mkAlnRes 0 7 3)] /\
  _genusMap (goState (sampleClassifier 22 oneTaxon) 5 false (oneHitOfLength 65551))
  = [GenusCount.mk 3 1 0 0 [SpeciesCount.mk 7 1 0 0]].
Proof. by_computation. Qed.


(** * Further properties *)

(** ** The genus scan and its index *)

Lemma findGenus_None_ids (m : list GenusCount.t) (g : Z) :
  findGenus m g = None <-> ~ In g (genusIds m).
Proof.
  induction m as [|e rest IH]; simpl; [tauto|].
  destruct (Z.eqb_spec (GenusCount.id e) g) as [E|E].
  - split; [discriminate|]. intros H. exfalso. apply H. left. exact E.
  - rewrite IH. tauto.
Qed.

Lemma findSpecies_None_ids (sm : list SpeciesCount.t) (s : Z) :
  findSpecies sm s = None <-> ~ In s (speciesIds sm).
Proof.
  induction sm as [|x rest IH]; simpl; [tauto|].
  destruct (Z.eqb_spec (SpeciesCount.id x) s) as [E|E].
  - split; [discriminate|]. intros H. exfalso. apply H. left. exact E.
  - rewrite IH. tauto.
Qed.

(** [addHitToGenusMap] returns an index inside the map it leaves, as its
    closing assertion demands; the entry there has the id asked for, is the
    first with that id, and is the entry found before with the credit of the
    round applied, or a fresh entry. *)
Theorem genus_index_names_credited_entry
        (m : list GenusCount.t) (g hi w : Z) :
  let i := fst (addHitToGenusMap m g hi w) in
  let m' := snd (addHitToGenusMap m g hi w) in
  let e := creditGenusEntry (findGenus m g) g hi w in
  (i < length m')%nat /\
  nth_error m' i = Some e /\
  GenusCount.id e = g /\
  findGenus m' g = Some e /\
  (forall j x, (j < i)%nat -> nth_error m' j = Some x -> GenusCount.id x <> g).
Proof.
  cbn zeta. induction m as [|x rest IH].
  - unfold addHitToGenusMap. simpl. rewrite Z.eqb_refl.
    repeat split; auto; try (intros; lia).
  - destruct (Z.eq_dec (GenusCount.id x) g) as [E|E].
    + rewrite (addHitToGenusMap_same _ _ _ _ _ E). cbn [fst snd findGenus].
      rewrite (proj2 (Z.eqb_eq _ _) E).
      assert (Hid : GenusCount.id (creditGenusEntry (Some x) g hi w) = g).
      { apply creditGenusEntry_id. intros y Hy. injection Hy as <-. exact E. }
      rewrite Hid, Z.eqb_refl. simpl.
      repeat split; auto; try (intros; lia).
    + rewrite (addHitToGenusMap_other _ _ _ _ _ E). cbn [fst snd findGenus].
      rewrite (proj2 (Z.eqb_neq _ _) E).
      destruct IH as (Hlt & Hnth & Hid & Hfind & Hfirst).
      split; [simpl; lia|]. split; [exact Hnth|]. split; [exact Hid|].
      split; [exact Hfind|].
      intros [|j] y Hj Hy; simpl in Hy.
      * injection Hy as <-. exact E.
      * apply (Hfirst j y); [lia|exact Hy].
Qed.

(** ** Entries are appended, never removed or reordered *)

Lemma scanSpeciesMap_ids (sm : list SpeciesCount.t) (gw s hi w : Z) :
  forall sc sm',
    scanSpeciesMap sm gw s hi w = Some (sc, sm') ->
    speciesIds sm' = speciesIds sm.
Proof.
  induction sm as [|x rest IH]; intros sc sm' H; simpl in H; [discriminate|].
  destruct (SpeciesCount.id x =? s).
  - destruct (negb (SpeciesCount.timeStamp x =? hi));
      injection H as _ <-; reflexivity.
  - destruct (scanSpeciesMap rest gw s hi w) as [[sc0 rest']|]; [|discriminate].
    injection H as _ <-. simpl. rewrite (IH sc0 rest' eq_refl). reflexivity.
Qed.

Lemma addHitToSpeciesMap_ids (e : GenusCount.t) (s hi w : Z) :
  speciesIds (GenusCount.speciesMap (snd (addHitToSpeciesMap e s hi w)))
  = speciesIds (GenusCount.speciesMap e)
    ++ match findSpecies (GenusCount.speciesMap e) s with
       | Some _ => []
       | None => [s]
       end.
Proof.
  unfold addHitToSpeciesMap.
  pose proof (scanSpeciesMap_spec (GenusCount.speciesMap e)
                (GenusCount.weightedCount e) s hi w) as H.
  destruct (findSpecies (GenusCount.speciesMap e) s) as [x|].
  - destruct H as (sm' & Hscan & _). rewrite Hscan. simpl.
    rewrite (scanSpeciesMap_ids _ _ _ _ _ _ _ Hscan), app_nil_r. reflexivity.
  - rewrite H. simpl. unfold speciesIds. rewrite map_app. reflexivity.
Qed.

Lemma creditCoord_ids (m : list GenusCount.t) (g s hi w : Z) :
  genusIds (snd (creditCoord m g s hi w))
  = genusIds m ++ match findGenus m g with Some _ => [] | None => [g] end.
Proof.
  induction m as [|e rest IH].
  - rewrite creditCoord_nil. cbn [snd genusIds map findGenus app].
    destruct (addHitToSpeciesMap_fields (creditGenusEntry None g hi w) s hi w)
      as (Hid & _).
    rewrite Hid. reflexivity.
  - cbn [findGenus]. destruct (Z.eqb_spec (GenusCount.id e) g) as [E|E].
    + rewrite (creditCoord_same _ _ _ _ _ _ E). cbn [snd genusIds map].
      destruct (addHitToSpeciesMap_fields
                  (creditGenusEntry (Some e) g hi w) s hi w) as (Hid & _).
      rewrite Hid, creditGenusEntry_id, app_nil_r.
      * rewrite E. reflexivity.
      * intros y Hy. injection Hy as <-. exact E.
    + rewrite (creditCoord_other _ _ _ _ _ _ E). cbn [snd].
      unfold genusIds in *. cbn [map]. rewrite IH. reflexivity.
Qed.

(** One coordinate appends at most one genus entry and at most one species
    entry under its genus; the ids already in the genus map, and those in
    the species map of the genus, keep their places. *)
Theorem coordinate_appends_entries (m : list GenusCount.t) (g s hi w : Z) :
  let m' := snd (creditCoord m g s hi w) in
  genusIds m'
  = genusIds m ++ match findGenus m g with Some _ => [] | None => [g] end /\
  speciesIds (speciesMapOf m' g)
  = speciesIds (speciesMapOf m g)
    ++ match findSpecies (speciesMapOf m g) s with Some _ => [] | None => [s] end /\
  (forall g', g' <> g -> speciesMapOf m' g' = speciesMapOf m g').
Proof.
  cbn zeta. split; [apply creditCoord_ids|]. split.
  - rewrite creditCoord_speciesMapOf_same, addHitToSpeciesMap_ids,
      creditGenusEntry_speciesMap.
    reflexivity.
  - intros g' Hg. unfold speciesMapOf.
    rewrite (creditCoord_find_other _ _ _ _ _ _ Hg). reflexivity.
Qed.

(** ** Invariants of the genus map along a call *)

Lemma creditCoord_Forall (P : GenusCount.t -> Prop)
      (m : list GenusCount.t) (g s hi w : Z) :
  Forall P m ->
  (forall o,
      (forall e, o = Some e -> P e /\ GenusCount.id e = g) ->
      P (snd (addHitToSpeciesMap (creditGenusEntry o g hi w) s hi w))) ->
  Forall P (snd (creditCoord m g s hi w)).
Proof.
  intros Hm HP. induction m as [|e rest IH].
  - rewrite creditCoord_nil. cbn [snd]. constructor; [|constructor].
    apply HP. intros e He. discriminate.
  - inversion Hm as [|e0 r0 He Hrest]; subst.
    destruct (Z.eq_dec (GenusCount.id e) g) as [E|E].
    + rewrite (creditCoord_same _ _ _ _ _ _ E). cbn [snd].
      constructor; [|exact Hrest].
      apply HP. intros e' He'. injection He' as <-. split; assumption.
    + rewrite (creditCoord_other _ _ _ _ _ _ E). cbn [snd].
      constructor; [exact He|]. apply IH. exact Hrest.
Qed.

Lemma NoDup_snoc (l : list Z) (x : Z) :
  NoDup l -> ~ In x l -> NoDup (l ++ [x]).
Proof.
  intros Hl Hx. apply NoDup_app; [exact Hl|constructor; [simpl; tauto|constructor]|].
  intros a Ha [<-|[]]. apply Hx. exact Ha.
Qed.

(** A coordinate keeps the ids unique: an entry is appended only after a
    scan that did not find its id. *)
Lemma creditCoord_uniqueIds (m : list GenusCount.t) (g s hi w : Z) :
  uniqueIds m -> uniqueIds (snd (creditCoord m g s hi w)).
Proof.
  intros [Hg Hs]. split.
  - rewrite creditCoord_ids.
    destruct (findGenus m g) eqn:F; [rewrite app_nil_r; exact Hg|].
    apply NoDup_snoc; [exact Hg|]. apply findGenus_None_ids. exact F.
  - apply creditCoord_Forall; [exact Hs|].
    intros o Ho. rewrite addHitToSpeciesMap_ids, creditGenusEntry_speciesMap.
    assert (Hsm : NoDup (speciesIds
                           match o with
                           | Some e => GenusCount.speciesMap e
                           | None => []
                           end)).
    { destruct o as [e|]; [apply (Ho e eq_refl)|constructor]. }
    destruct (findSpecies _ s) eqn:F; [rewrite app_nil_r; exact Hsm|].
    apply NoDup_snoc; [exact Hsm|]. apply findSpecies_None_ids. exact F.
Qed.

Lemma insertBWTHit_perm (h : BWTHit.t) (l : list BWTHit.t) :
  Permutation (h :: l) (insertBWTHit h l).
Proof.
  induction l as [|x rest IH]; simpl; [apply Permutation_refl|].
  destruct (compareBWTHits h x); [apply Permutation_refl|].
  apply perm_trans with (l' := x :: h :: rest); [apply perm_swap|].
  apply perm_skip. exact IH.
Qed.

Lemma sortBWTHits_perm (l : list BWTHit.t) : Permutation l (sortBWTHits l).
Proof.
  unfold sortBWTHits.
  assert (H : forall acc,
             Permutation (l ++ acc)
                         (fold_left (fun a h => insertBWTHit h a) l acc)).
  { induction l as [|h rest IH]; intros acc; simpl; [apply Permutation_refl|].
    eapply perm_trans; [|apply IH].
    apply perm_trans with (l' := rest ++ h :: acc).
    - apply Permutation_middle.
    - apply Permutation_app_head. apply insertBWTHit_perm. }
  specialize (H []). rewrite app_nil_r in H. exact H.
Qed.

Section LoopInvariant.

(** A property [J k m] of the genus map [m] after [k] credited coordinates,
    kept by every credit of a round below [H] while [k] is below [K]. *)
Variable J : Z -> list GenusCount.t -> Prop.
Variables K H : Z.
Hypothesis Hstep :
  forall k m g s hi w,
    0 <= k < K -> 0 <= hi < H -> 0 <= w < 2 ^ 32 ->
    J k m -> J (k + 1) (snd (creditCoord m g s hi w)).

Lemma coordLoop_counted (c : Classifier) (maxGenomeHitSize hi hit_len : Z)
      (coords : list Coord) :
  maxGenomeHitSize < 2 ^ 64 -> 0 <= hi < H ->
  forall st k,
    0 <= genomeHitCnt st <= maxGenomeHitSize ->
    0 <= k -> k + (maxGenomeHitSize - genomeHitCnt st) <= K ->
    J k (_genusMap st) ->
    let st' := coordLoop c maxGenomeHitSize hi hit_len coords st in
    genomeHitCnt st <= genomeHitCnt st' <= maxGenomeHitSize /\
    J (k + (genomeHitCnt st' - genomeHitCnt st)) (_genusMap st').
Proof.
  intros Hmax Hhi. induction coords as [|coord rest IH]; intros st k Hc Hk HK HJ;
    cbn zeta; simpl.
  - split; [lia|]. replace (k + _) with k by lia. exact HJ.
  - destruct (Z.ltb_spec (genomeHitCnt st) maxGenomeHitSize) as [G|G].
    + destruct (coordStep_fields c hi hit_len coord st) as (_ & _ & Hcnt & _).
      assert (Hcnt' : genomeHitCnt (coordStep c hi hit_len coord st)
                      = genomeHitCnt st + 1).
      { rewrite Hcnt. unfold sz. apply u64_small. lia. }
      destruct (IH (coordStep c hi hit_len coord st) (k + 1)) as (Hle & HJ').
      * lia.
      * lia.
      * lia.
      * rewrite coordStep_genusMap.
        apply Hstep; [lia|exact Hhi|apply addWeightOf_range|exact HJ].
      * split; [lia|].
        match goal with
        | |- J ?a _ =>
            match type of HJ' with
            | J ?b _ => replace a with b by lia
            end
        end.
        exact HJ'.
    + split; [lia|]. replace (k + _) with k by lia. exact HJ.
Qed.

Lemma hitLoop_counted (c : Classifier) (hit : ReadBWTHit.t)
      (maxGenomeHitSize : Z) (last_round : bool) (total : Z)
      (partialHits : list BWTHit.t) :
  maxGenomeHitSize < 2 ^ 64 ->
  forall hi st k,
    0 <= hi -> hi + Z.of_nat (length partialHits) <= H ->
    0 <= genomeHitCnt st <= maxGenomeHitSize ->
    0 <= k -> k + (maxGenomeHitSize - genomeHitCnt st) <= K ->
    J k (_genusMap st) ->
    let st' := hitLoop c hit maxGenomeHitSize last_round total hi partialHits st in
    genomeHitCnt st <= genomeHitCnt st' <= maxGenomeHitSize /\
    J (k + (genomeHitCnt st' - genomeHitCnt st)) (_genusMap st').
Proof.
  intros Hmax. induction partialHits as [|ph rest IH];
    intros hi st k Hhi HH Hc Hk HK HJ; cbn zeta.
  - simpl. split; [lia|]. replace (k + _) with k by lia. exact HJ.
  - cbn [hitLoop]. cbn [length] in HH.
    destruct (sz (BWTHit.len ph) <? _minHitLen c).
    { apply IH; try assumption; lia. }
    unfold resolveHit.
    destruct (getCoords c hit ph maxGenomeHitSize st) as [|x xs] eqn:Hco.
    { match goal with
      | |- context [hitLoop _ _ _ _ _ _ rest ?s] =>
          apply (IH (hi + 1) s k); cbn [genomeHitCnt _genusMap];
            try assumption; lia
      end. }
    assert (H3 : genomeHitCnt st
                 <= genomeHitCnt (processHit c hit maxGenomeHitSize hi ph st)
                 <= maxGenomeHitSize /\
                 J (k + (genomeHitCnt (processHit c hit maxGenomeHitSize hi ph st)
                         - genomeHitCnt st))
                   (_genusMap (processHit c hit maxGenomeHitSize hi ph st))).
    { unfold processHit, resolveHit.
      match goal with
      | |- context [coordLoop c maxGenomeHitSize hi ?l ?cs ?s] =>
          apply (coordLoop_counted c maxGenomeHitSize hi l cs Hmax
                                   ltac:(lia) s k);
            cbn [genomeHitCnt _genusMap]; try assumption; lia
      end. }
    set (st3 := processHit c hit maxGenomeHitSize hi ph st) in *.
    destruct H3 as (Hle3 & HJ3).
    destruct (genomeHitCnt st3 >=? maxGenomeHitSize); [split; assumption|].
    destruct (last_round && scoreGapStop total st3); [split; assumption|].
    destruct (IH (hi + 1) st3 (k + (genomeHitCnt st3 - genomeHitCnt st)))
      as (Hle & HJ'); try assumption; try lia.
    split; [lia|].
    match goal with
    | |- J ?a _ =>
        match type of HJ' with
        | J ?b _ => replace a with b by lia
        end
    end.
    exact HJ'.
Qed.

Lemma classifyMate_counted (c : Classifier) (maxGenomeHitSize : Z)
      (paired : bool) (rdi : Z) (hits : ReadBWTHit.t * ReadBWTHit.t)
      (st : State) (k : Z) :
  0 <= maxGenomeHitSize < 2 ^ 64 ->
  Z.of_nat (length (ReadBWTHit._partialHits (fst hits))) <= H ->
  Z.of_nat (length (ReadBWTHit._partialHits (snd hits))) <= H ->
  0 <= k -> k + maxGenomeHitSize <= K ->
  J k (_genusMap st) ->
  let st' := classifyMate c maxGenomeHitSize paired rdi hits st in
  0 <= genomeHitCnt st' <= maxGenomeHitSize /\
  J (k + genomeHitCnt st') (_genusMap st').
Proof.
  intros Hmax Hf Hr Hk HK HJ. cbn zeta. unfold classifyMate.
  assert (Hsel : Z.of_nat
                   (length (ReadBWTHit._partialHits
                              (snd (fst (getForwardOrReverseHit c hits (0, 0))))))
                 <= H).
  { unfold getForwardOrReverseHit.
    destruct (sumHitLength _ _ _ _) as [t0 n0].
    destruct (sumHitLength _ _ _ _) as [t1 n1]. cbn [fst snd].
    destruct ((if avgHitLength t0 n0 >? avgHitLength t1 n1 then 0 else 1) =? 0);
      assumption. }
  destruct (getForwardOrReverseHit c hits (0, 0)) as [[fwi hit] totals].
  cbn [fst snd] in Hsel.
  match goal with
  | |- context [hitLoop c hit maxGenomeHitSize ?lr ?t 0 ?l ?s] =>
      destruct (hitLoop_counted c hit maxGenomeHitSize lr t l ltac:(lia) 0 s k)
        as (Hle & HJ')
  end; cbn [genomeHitCnt _genusMap]; try assumption; try lia.
  - rewrite <- (Permutation_length (sortBWTHits_perm _)). lia.
  - cbn [genomeHitCnt] in *. split; [lia|].
    rewrite Z.sub_0_r in HJ'. exact HJ'.
Qed.

End LoopInvariant.

(** ** Unique ids, unique reports *)

Lemma goState_uniqueIds
      (c : Classifier) (khits : Z) (paired : bool)
      (hits : Z -> ReadBWTHit.t * ReadBWTHit.t) :
  uniqueIds (_genusMap (goState c khits paired hits)).
Proof.
  pose proof (u32_range khits) as Hk. fold (idx khits) in Hk.
  assert (Hmate : forall rdi h st,
             uniqueIds (_genusMap st) ->
             uniqueIds (_genusMap (classifyMate c (idx khits) paired rdi h st))).
  { intros rdi h st Hu.
    apply (classifyMate_counted
             (fun _ m => uniqueIds m) (idx khits)
             (Z.max (Z.of_nat (length (ReadBWTHit._partialHits (fst h))))
                    (Z.of_nat (length (ReadBWTHit._partialHits (snd h)))))
             (fun k m g s hi w _ _ _ Hm => creditCoord_uniqueIds m g s hi w Hm)
             c (idx khits) paired rdi h st 0); try lia.
    exact Hu. }
  assert (H0 : uniqueIds (_genusMap initState)).
  { split; constructor. }
  unfold goState. destruct paired; auto.
Qed.

(** The genus map [go] reports from has no two entries with one genus id,
    and no genus entry has two species entries with one species id. *)
Theorem go_map_has_unique_ids
        (c : Classifier) (khits : Z) (paired : bool)
        (hits : Z -> ReadBWTHit.t * ReadBWTHit.t) :
  let m := _genusMap (goState c khits paired hits) in
  NoDup (map GenusCount.id m) /\
  (forall g, In g m -> NoDup (map SpeciesCount.id (GenusCount.speciesMap g))).
Proof.
  cbn zeta. destruct (goState_uniqueIds c khits paired hits) as [Hg Hs].
  split; [exact Hg|]. intros g Hin.
  rewrite Forall_forall in Hs. apply Hs. exact Hin.
Qed.

Lemma NoDup_map_pair (sm : list SpeciesCount.t) (g : Z) :
  NoDup (speciesIds sm) ->
  NoDup (map (fun s => (SpeciesCount.id s, g)) sm).
Proof.
  induction sm as [|x rest IH]; simpl; intros H; [constructor|].
  inversion H as [|a l Hin Hnd]; subst. constructor; [|apply IH; exact Hnd].
  intros Hx. apply Hin. apply in_map_iff in Hx.
  destruct Hx as (y & Hy & Hyin). injection Hy as Hy.
  unfold speciesIds. apply in_map_iff. exists y. split; assumption.
Qed.

Lemma reportGenus_keys (g : GenusCount.t) :
  map reportKey (reportGenus g)
  = map (fun s => (SpeciesCount.id s, GenusCount.id g)) (GenusCount.speciesMap g).
Proof. unfold reportGenus. rewrite map_map. reflexivity. Qed.

Lemma reportAll_keys_genus (m : list GenusCount.t) (k : Z * Z) :
  In k (map reportKey (reportAll m)) -> In (snd k) (genusIds m).
Proof.
  intros Hk. apply in_map_iff in Hk. destruct Hk as (r & <- & Hr).
  unfold reportAll in Hr. apply in_flat_map in Hr. destruct Hr as (g & Hg & Hr).
  unfold reportGenus in Hr. apply in_map_iff in Hr. destruct Hr as (s & <- & _).
  simpl. unfold genusIds. apply in_map. exact Hg.
Qed.

Lemma reportAll_keys_NoDup (m : list GenusCount.t) :
  uniqueIds m -> NoDup (map reportKey (reportAll m)).
Proof.
  intros [Hg Hs]. induction m as [|g rest IH]; [constructor|].
  cbn [reportAll flat_map]. rewrite map_app.
  inversion Hg as [|a l Hin Hnd]; subst.
  inversion Hs as [|a l Hsg Hsrest]; subst.
  apply NoDup_app.
  - rewrite reportGenus_keys. apply NoDup_map_pair. exact Hsg.
  - apply IH; assumption.
  - intros k Hk1 Hk2. apply Hin.
    rewrite reportGenus_keys in Hk1. apply in_map_iff in Hk1.
    destruct Hk1 as (s & <- & _).
    apply (reportAll_keys_genus rest _ Hk2).
Qed.

(** No two reports of a call carry the same pair of species id and genus
    id. *)
Theorem go_reports_each_pair_once
        (c : Classifier) (khits : Z) (paired : bool)
        (hits : Z -> ReadBWTHit.t * ReadBWTHit.t) :
  NoDup (map reportKey (snd (go c khits paired hits))).
Proof.
  unfold go. cbn [snd]. apply reportAll_keys_NoDup.
  apply goState_uniqueIds.
Qed.

(** ** Number of reports *)

Lemma addHitToSpeciesMap_length (e : GenusCount.t) (s hi w : Z) :
  (length (GenusCount.speciesMap (snd (addHitToSpeciesMap e s hi w)))
   <= S (length (GenusCount.speciesMap e)))%nat.
Proof.
  pose proof (f_equal (@length Z) (addHitToSpeciesMap_ids e s hi w)) as H.
  unfold speciesIds in H. rewrite length_app, !length_map in H.
  destruct (findSpecies (GenusCount.speciesMap e) s); simpl in H; lia.
Qed.

Lemma creditCoord_speciesEntries (m : list GenusCount.t) (g s hi w : Z) :
  (speciesEntries (snd (creditCoord m g s hi w)) <= S (speciesEntries m))%nat.
Proof.
  unfold speciesEntries. induction m as [|e rest IH].
  - rewrite creditCoord_nil. cbn [snd map list_sum fold_right].
    pose proof (addHitToSpeciesMap_length (creditGenusEntry None g hi w) s hi w) as H.
    rewrite creditGenusEntry_speciesMap in H. cbn [length] in H.
    rewrite Nat.add_0_r. exact H.
  - destruct (Z.eq_dec (GenusCount.id e) g) as [E|E].
    + rewrite (creditCoord_same _ _ _ _ _ _ E).
      cbn [snd map list_sum fold_right].
      pose proof (addHitToSpeciesMap_length
                    (creditGenusEntry (Some e) g hi w) s hi w) as H.
      rewrite creditGenusEntry_speciesMap in H.
      clear IH. lia.
    + rewrite (creditCoord_other _ _ _ _ _ _ E).
      cbn [snd map]. unfold list_sum in *. cbn [fold_right].
      revert IH.
      generalize (fold_right Init.Nat.add 0%nat
                    (map (fun g0 => length (GenusCount.speciesMap g0))
                         (snd (creditCoord rest g s hi w)))).
      generalize (fold_right Init.Nat.add 0%nat
                    (map (fun g0 => length (GenusCount.speciesMap g0)) rest)).
      intros a b Hab. lia.
Qed.

Lemma speciesEntries_step (n : Z) (m : list GenusCount.t) (g s hi w : Z) :
  Z.of_nat (speciesEntries m) <= n ->
  Z.of_nat (speciesEntries (snd (creditCoord m g s hi w))) <= n + 1.
Proof.
  intros H. pose proof (creditCoord_speciesEntries m g s hi w). lia.
Qed.

Lemma reportAll_count (m : list GenusCount.t) :
  length (reportAll m) = speciesEntries m.
Proof.
  rewrite reportAll_length. unfold reportOffset, speciesEntries.
  rewrite firstn_all. reflexivity.
Qed.

Lemma classifyMate_speciesEntries
      (c : Classifier) (khits : Z) (paired : bool) (rdi : Z)
      (h : ReadBWTHit.t * ReadBWTHit.t) (st : State) (k : Z) :
  0 <= k ->
  Z.of_nat (speciesEntries (_genusMap st)) <= k ->
  Z.of_nat (speciesEntries
              (_genusMap (classifyMate c (idx khits) paired rdi h st)))
  <= k + idx khits.
Proof.
  intros Hk Hs.
  pose proof (u32_range khits) as Hr. fold (idx khits) in Hr.
  destruct (classifyMate_counted
              (fun n m => Z.of_nat (speciesEntries m) <= n) (k + idx khits)
              (Z.max (Z.of_nat (length (ReadBWTHit._partialHits (fst h))))
                     (Z.of_nat (length (ReadBWTHit._partialHits (snd h)))))
              (fun n m g s hi w _ _ _ Hm =>
                 speciesEntries_step n m g s hi w Hm)
              c (idx khits) paired rdi h st k) as (Hc & HJ); try lia.
Qed.

(** A call reports at most [khits] results for an unpaired read and at
    most twice [khits] for a pair: every report stands for a species entry,
    and an entry is created only by a coordinate accepted under the budget.
    In particular a budget of 0 gives no report. *)
Theorem go_reports_at_most_budget
        (c : Classifier) (khits : Z) (paired : bool)
        (hits : Z -> ReadBWTHit.t * ReadBWTHit.t) :
  Z.of_nat (length (snd (go c khits paired hits)))
  <= (if paired then 2 else 1) * idx khits.
Proof.
  unfold go. cbn [snd]. rewrite reportAll_count.
  pose proof (u32_range khits) as Hr. fold (idx khits) in Hr.
  pose proof (classifyMate_speciesEntries c khits paired 0 (hits 0) initState 0
                ltac:(lia) ltac:(simpl; lia)) as H1.
  unfold goState. destruct paired; [|lia].
  pose proof (classifyMate_speciesEntries c khits true 1 (hits 1)
                (classifyMate c (idx khits) true 0 (hits 0) initState)
                (0 + idx khits) ltac:(lia) H1) as H2.
  lia.
Qed.

(** ** The score trackers *)

(** When the loop over mates ends the second best score is at most the best
    score, both are values of a [uint32_t], and so is every weighted count
    of the genus map. *)
Theorem go_keeps_scores_ordered
        (c : Classifier) (khits : Z) (paired : bool)
        (hits : Z -> ReadBWTHit.t * ReadBWTHit.t) :
  let st := goState c khits paired hits in
  0 <= secondBestScore st <= bestScore st /\
  bestScore st < 2 ^ 32 /\
  (forall g, In g (_genusMap st) -> 0 <= GenusCount.weightedCount g < 2 ^ 32).
Proof.
  cbn zeta. destruct (goState_scoreInv c khits paired hits) as (Hm & Hs & Hb).
  split; [exact Hs|]. split; [exact Hb|].
  intros g Hin. unfold wfGenusMap in Hm. rewrite Forall_forall in Hm.
  apply Hm. exact Hin.
Qed.

(** ** Truncation at the budget *)

(** The coordinate loop credits the coordinates in order until the budget
    is reached: its result is that of the loop on the first
    [maxGenomeHitSize - genomeHitCnt] coordinates, and the counter ends at
    the budget or at the number of coordinates seen, whichever is less. *)
Theorem coordinate_loop_truncates
        (c : Classifier) (maxGenomeHitSize hi hit_len : Z)
        (coords : list Coord) (st : State) :
  0 <= genomeHitCnt st <= maxGenomeHitSize -> maxGenomeHitSize < 2 ^ 64 ->
  coordLoop c maxGenomeHitSize hi hit_len coords st
  = coordLoop c maxGenomeHitSize hi hit_len
              (firstn (Z.to_nat (maxGenomeHitSize - genomeHitCnt st)) coords) st /\
  genomeHitCnt (coordLoop c maxGenomeHitSize hi hit_len coords st)
  = Z.min (genomeHitCnt st + Z.of_nat (length coords)) maxGenomeHitSize.
Proof.
  intros Hc Hmax. revert st Hc.
  induction coords as [|coord rest IH]; intros st Hc.
  - rewrite firstn_nil. simpl. split; [reflexivity|lia].
  - cbn [coordLoop].
    destruct (Z.ltb_spec (genomeHitCnt st) maxGenomeHitSize) as [G|G].
    + destruct (coordStep_fields c hi hit_len coord st) as (_ & _ & Hcnt & _).
      assert (Hcnt' : genomeHitCnt (coordStep c hi hit_len coord st)
                      = genomeHitCnt st + 1).
      { rewrite Hcnt. unfold sz. apply u64_small. lia. }
      destruct (IH (coordStep c hi hit_len coord st)) as (Heq & Hn); [lia|].
      replace (Z.to_nat (maxGenomeHitSize - genomeHitCnt st))
        with (S (Z.to_nat (maxGenomeHitSize
                           - genomeHitCnt (coordStep c hi hit_len coord st))))
        by lia.
      cbn [firstn coordLoop].
      destruct (Z.ltb_spec (genomeHitCnt st) maxGenomeHitSize); [|lia].
      split; [exact Heq|]. rewrite Hn. cbn [length]. lia.
    + replace (maxGenomeHitSize - genomeHitCnt st) with 0 by lia.
      simpl. split; [reflexivity|]. cbn [length]. lia.
Qed.

(** ** Reads without a qualifying hit *)





(** ** The strand without qualifying hits *)

Lemma sumHitLength_none (minHitLen : Z) (partialHits : list BWTHit.t) :
  Forall (fun h => BWTHit.len h < minHitLen) partialHits ->
  forall total numHits,
    sumHitLength minHitLen partialHits total numHits = (total, numHits).
Proof.
  induction 1 as [|h rest Hh _ IH]; intros total numHits; [reflexivity|].
  cbn [sumHitLength]. apply Z.ltb_lt in Hh. rewrite Hh. apply IH.
Qed.

Lemma avgHitLength_nonneg (total numHits : Z) : 0 <= avgHitLength total numHits.
Proof.
  unfold avgHitLength. destruct (numHits >? 0); [|lia].
  unfold idx. apply u32_range.
Qed.

(** A forward strand none of whose partial hits reaches [_minHitLen] is
    never selected: its average is 0 and only a strictly greater forward
    average selects the forward strand.  With no qualifying hit on either
    strand the reverse hit set is the one returned. *)
Theorem forward_strand_needs_qualifying_hit
        (c : Classifier) (hits : ReadBWTHit.t * ReadBWTHit.t) :
  Forall (fun h => BWTHit.len h < _minHitLen c)
         (ReadBWTHit._partialHits (fst hits)) ->
  fst (fst (getForwardOrReverseHit c hits (0, 0))) = 1 /\
  snd (fst (getForwardOrReverseHit c hits (0, 0))) = snd hits /\
  fst (snd (getForwardOrReverseHit c hits (0, 0))) = 0.
Proof.
  intros Hf. unfold getForwardOrReverseHit. cbn [fst snd].
  rewrite (sumHitLength_none _ _ Hf).
  destruct (sumHitLength _ _ _ _) as [t1 n1].
  pose proof (avgHitLength_nonneg t1 n1) as Hn.
  change (avgHitLength 0 0) with 0.
  destruct (Z.gtb_spec 0 (avgHitLength t1 n1)) as [G|G]; [lia|].
  cbn [fst snd]. auto.
Qed.

Lemma forward_strand_needs_qualifying_hit_witness :
  Forall (fun h => BWTHit.len h < _minHitLen (sampleClassifier 22 oneTaxon))
         (ReadBWTHit._partialHits (fst (oneHitOfLength 21 0))) /\
  snd (fst (getForwardOrReverseHit (sampleClassifier 22 oneTaxon)
                                   (oneHitOfLength 21 0) (0, 0)))
  = snd (oneHitOfLength 21 0).
Proof.
  assert (H : Forall (fun h => BWTHit.len h
                               < _minHitLen (sampleClassifier 22 oneTaxon))
                     (ReadBWTHit._partialHits (fst (oneHitOfLength 21 0)))).
  { repeat constructor. }
  split; [exact H|].
  apply (forward_strand_needs_qualifying_hit
           (sampleClassifier 22 oneTaxon) (oneHitOfLength 21 0) H).
Defined.

(** ** The order of the partial hits *)

Ltac compare_cases :=
  unfold compareBWTHits;
  repeat match goal with
         | |- context [?a <? ?b] => destruct (Z.ltb_spec a b)
         | |- context [?a >? ?b] => destruct (Z.gtb_spec a b)
         | H : context [?a <? ?b] |- _ => destruct (Z.ltb_spec a b)
         | H : context [?a >? ?b] |- _ => destruct (Z.gtb_spec a b)
         end;
  try reflexivity; try discriminate; try lia.

Lemma compareBWTHits_spec (a b : BWTHit.t) :
  compareBWTHits a b = true <->
  BWTHit.size a < BWTHit.size b \/
  (BWTHit.size a = BWTHit.size b /\ BWTHit.len b < BWTHit.len a).
Proof. split; [intros H|intros H]; revert H; compare_cases. Qed.

(** [compareBWTHits] is a strict weak ordering, as the sort it is handed to
    requires: no hit comes before itself, two hits never come before each
    other, the order is transitive, and so is being unordered; hits are
    unordered exactly when they agree in range size and in length. *)
Theorem compareBWTHits_strict_weak_order :
  (forall a, compareBWTHits a a = false) /\
  (forall a b, compareBWTHits a b = true -> compareBWTHits b a = false) /\
  (forall a b c,
      compareBWTHits a b = true -> compareBWTHits b c = true ->
      compareBWTHits a c = true) /\
  (forall a b c,
      compareBWTHits a b = false -> compareBWTHits b a = false ->
      compareBWTHits b c = false -> compareBWTHits c b = false ->
      compareBWTHits a c = false /\ compareBWTHits c a = false) /\
  (forall a b,
      compareBWTHits a b = false /\ compareBWTHits b a = false <->
      BWTHit.size a = BWTHit.size b /\ BWTHit.len a = BWTHit.len b).
Proof.
  assert (Hfalse : forall a b,
             compareBWTHits a b = false <->
             ~ (BWTHit.size a < BWTHit.size b \/
                (BWTHit.size a = BWTHit.size b /\ BWTHit.len b < BWTHit.len a))).
  { intros a b. rewrite <- compareBWTHits_spec.
    destruct (compareBWTHits a b); split; congruence. }
  split; [|split; [|split; [|split]]].
  - intros a. apply Hfalse. lia.
  - intros a b H. apply compareBWTHits_spec in H. apply Hfalse. lia.
  - intros a b c H1 H2. apply compareBWTHits_spec in H1, H2.
    apply compareBWTHits_spec. lia.
  - intros a b c H1 H2 H3 H4. apply Hfalse in H1, H2, H3, H4.
    split; apply Hfalse; lia.
  - intros a b. rewrite !Hfalse. lia.
Qed.

Lemma compareBWTHits_strict_weak_order_witness :
  compareBWTHits (BWTHit.mk 0 1 40 0) (BWTHit.mk 0 3 50 0) = true /\
  compareBWTHits (BWTHit.mk 0 3 50 0) (BWTHit.mk 0 3 30 0) = true /\
  compareBWTHits (BWTHit.mk 0 1 40 0) (BWTHit.mk 0 3 30 0) = true.
Proof.
  split; [reflexivity|]. split; [reflexivity|].
  apply (proj1 (proj2 (proj2 compareBWTHits_strict_weak_order))
           (BWTHit.mk 0 1 40 0) (BWTHit.mk 0 3 50 0) (BWTHit.mk 0 3 30 0));
    reflexivity.
Defined.

Lemma compareBWTHits_false (a b : BWTHit.t) :
  compareBWTHits a b = false <->
  ~ (BWTHit.size a < BWTHit.size b \/
     (BWTHit.size a = BWTHit.size b /\ BWTHit.len b < BWTHit.len a)).
Proof.
  rewrite <- compareBWTHits_spec.
  destruct (compareBWTHits a b); split; congruence.
Qed.

Lemma insertBWTHit_sorted (h : BWTHit.t) (l : list BWTHit.t) :
  StronglySorted notAfter l -> StronglySorted notAfter (insertBWTHit h l).
Proof.
  induction l as [|x rest IH]; intros Hs; simpl.
  - constructor; constructor.
  - inversion Hs as [|x0 r0 Hrest Hall]; subst.
    destruct (compareBWTHits h x) eqn:E.
    + constructor; [exact Hs|].
      apply compareBWTHits_spec in E.
      constructor.
      * unfold notAfter. apply compareBWTHits_false. lia.
      * rewrite Forall_forall in *. intros y Hy. specialize (Hall y Hy).
        unfold notAfter in *. apply compareBWTHits_false in Hall.
        apply compareBWTHits_false. lia.
    + constructor; [apply IH; exact Hrest|].
      apply (Permutation_Forall (insertBWTHit_perm h rest)).
      constructor; [exact E|exact Hall].
Qed.

(** The partial hits are visited in an order that is a rearrangement of the
    hit set in which no hit is followed, at any distance, by a hit that
    [compareBWTHits] places before it: ascending range size, and descending
    length among equal sizes. *)
Theorem hits_visited_in_comparator_order (l : list BWTHit.t) :
  Permutation l (sortBWTHits l) /\
  StronglySorted notAfter (sortBWTHits l) /\
  (forall front a middle b back,
      sortBWTHits l = front ++ a :: middle ++ b :: back ->
      BWTHit.size a < BWTHit.size b \/
      (BWTHit.size a = BWTHit.size b /\ BWTHit.len b <= BWTHit.len a)).
Proof.
  assert (Hsorted : StronglySorted notAfter (sortBWTHits l)).
  { unfold sortBWTHits.
    assert (H : forall acc,
               StronglySorted notAfter acc ->
               StronglySorted notAfter
                 (fold_left (fun a h => insertBWTHit h a) l acc)).
    { induction l as [|h rest IH]; intros acc Hacc; simpl; [exact Hacc|].
      apply IH. apply insertBWTHit_sorted. exact Hacc. }
    apply H. constructor. }
  split; [apply sortBWTHits_perm|]. split; [exact Hsorted|].
  intros front a middle b back E. rewrite E in Hsorted. clear E.
  induction front as [|f front IH]; simpl in Hsorted.
  - inversion Hsorted as [|x0 r0 _ Hall]; subst.
    rewrite Forall_forall in Hall.
    assert (Hb : notAfter a b).
    { apply Hall. apply in_or_app. right. left. reflexivity. }
    unfold notAfter in Hb. apply compareBWTHits_false in Hb. lia.
  - inversion Hsorted; subst. apply IH. assumption.
Qed.

Lemma hits_visited_in_comparator_order_witness :
  sortBWTHits [BWTHit.mk 0 3 30 0; BWTHit.mk 5 6 25 0; BWTHit.mk 7 10 40 0]
  = [] ++ BWTHit.mk 5 6 25 0 :: [BWTHit.mk 7 10 40 0] ++ BWTHit.mk 0 3 30 0 :: [] /\
  (BWTHit.size (BWTHit.mk 5 6 25 0) < BWTHit.size (BWTHit.mk 0 3 30 0) \/
   (BWTHit.size (BWTHit.mk 5 6 25 0) = BWTHit.size (BWTHit.mk 0 3 30 0) /\
    BWTHit.len (BWTHit.mk 0 3 30 0) <= BWTHit.len (BWTHit.mk 5 6 25 0))).
Proof.
  split; [reflexivity|].
  apply (proj2 (proj2 (hits_visited_in_comparator_order
                         [BWTHit.mk 0 3 30 0; BWTHit.mk 5 6 25 0;
                          BWTHit.mk 7 10 40 0]))
           [] (BWTHit.mk 5 6 25 0) [BWTHit.mk 7 10 40 0] (BWTHit.mk 0 3 30 0) []).
  reflexivity.
Defined.

(** ** The seed search loop *)

Lemma setDone_done (h : ReadBWTHit.t) :
  ReadBWTHit.done h = true -> ReadBWTHit.setDone h = h.
Proof. destruct h. unfold ReadBWTHit.done, ReadBWTHit.setDone. simpl. intros ->. reflexivity. Qed.

Lemma searchStep_done (c : Classifier) (rdlen : Z) (fw : bool)
      (hit : ReadBWTHit.t) (cu : Z) (h' : ReadBWTHit.t) :
  searchStep c rdlen fw hit = Some (true, cu, h') -> ReadBWTHit.done h' = true.
Proof.
  unfold searchStep.
  destruct (ReadBWTHit.done (partialSearch c fw hit)) eqn:D.
  - intros H. injection H as _ <-. exact D.
  - destruct (rev (ReadBWTHit._partialHits (partialSearch c fw hit)))
      as [|lastHit front]; [discriminate|].
    match goal with
    | |- context [if ?b then Some (true, _, _) else _] => destruct b
    end; [|discriminate].
    intros H. injection H as _ <-. reflexivity.
Qed.

Lemma searchPass_flags (c : Classifier) (rdlen maxDiff : Z) (s s' : SearchState) :
  searchPass c rdlen maxDiff s = Some s' ->
  flagsAgree s ->
  flagsAgree s' /\
  (done0 s = true ->
   done0 s' = true /\ hit0 s' = hit0 s /\ cur0 s' = cur0 s) /\
  (done1 s = true ->
   done1 s' = true /\ hit1 s' = hit1 s /\ cur1 s' = cur1 s) /\
  (cur0 s' > sz (cur1 s' + maxDiff) -> done1 s' = true) /\
  (cur0 s' <= sz (cur1 s' + maxDiff) -> cur1 s' > sz (cur0 s' + maxDiff) ->
   done0 s' = true).
Proof.
  intros Hpass [F0 F1]. unfold searchPass in Hpass.
  assert (S0 : exists d0 c0 h0,
             (if done0 s then Some (true, cur0 s, hit0 s)
              else searchStep c rdlen true (hit0 s)) = Some (d0, c0, h0) /\
             (d0 = true -> ReadBWTHit.done h0 = true) /\
             (done0 s = true -> d0 = true /\ h0 = hit0 s /\ c0 = cur0 s)).
  { destruct (done0 s) eqn:D0.
    - exists true, (cur0 s), (hit0 s). auto.
    - destruct (searchStep c rdlen true (hit0 s)) as [[[d0 c0] h0]|] eqn:E;
        [|discriminate].
      exists d0, c0, h0. split; [reflexivity|]. split; [|discriminate].
      intros ->. apply (searchStep_done _ _ _ _ _ _ E). }
  destruct S0 as (d0 & c0 & h0 & E0 & G0 & K0). rewrite E0 in Hpass.
  assert (S1 : exists d1 c1 h1,
             (if done1 s then Some (true, cur1 s, hit1 s)
              else searchStep c rdlen false (hit1 s)) = Some (d1, c1, h1) /\
             (d1 = true -> ReadBWTHit.done h1 = true) /\
             (done1 s = true -> d1 = true /\ h1 = hit1 s /\ c1 = cur1 s)).
  { destruct (done1 s) eqn:D1.
    - exists true, (cur1 s), (hit1 s). auto.
    - destruct (searchStep c rdlen false (hit1 s)) as [[[d1 c1] h1]|] eqn:E;
        [|discriminate].
      exists d1, c1, h1. split; [reflexivity|]. split; [|discriminate].
      intros ->. apply (searchStep_done _ _ _ _ _ _ E). }
  destruct S1 as (d1 & c1 & h1 & E1 & G1 & K1). rewrite E1 in Hpass.
  destruct (Z.gtb_spec c0 (sz (c1 + maxDiff))) as [A|A].
  - injection Hpass as <-. unfold flagsAgree.
    cbn [done0 done1 cur0 cur1 hit0 hit1].
    split; [|split; [|split; [|split]]].
    + split; [exact G0|reflexivity].
    + exact K0.
    + intros D. destruct (K1 D) as (_ & -> & ->).
      split; [reflexivity|]. split; [|reflexivity].
      apply setDone_done. apply F1. exact D.
    + reflexivity.
    + intros; lia.
  - destruct (Z.gtb_spec c1 (sz (c0 + maxDiff))) as [B|B].
    + injection Hpass as <-. unfold flagsAgree.
      cbn [done0 done1 cur0 cur1 hit0 hit1].
      split; [|split; [|split; [|split]]].
      * split; [reflexivity|exact G1].
      * intros D. destruct (K0 D) as (_ & -> & ->).
        split; [reflexivity|]. split; [|reflexivity].
        apply setDone_done. apply F0. exact D.
      * exact K1.
      * intros; lia.
      * reflexivity.
    + injection Hpass as <-. unfold flagsAgree.
      cbn [done0 done1 cur0 cur1 hit0 hit1].
      split; [|split; [|split; [|split]]].
      * split; [exact G0|exact G1].
      * exact K0.
      * exact K1.
      * intros; lia.
      * intros; lia.
Qed.

Lemma searchLoop_exit (fuel : nat) (c : Classifier) (rdlen maxDiff : Z) :
  forall s s',
    searchLoop fuel c rdlen maxDiff s = Some s' ->
    flagsAgree s ->
    done0 s' = true /\ done1 s' = true /\ flagsAgree s' /\
    (done0 s = true -> hit0 s' = hit0 s /\ cur0 s' = cur0 s) /\
    (done1 s = true -> hit1 s' = hit1 s /\ cur1 s' = cur1 s).
Proof.
  induction fuel as [|fuel IH]; intros s s' Hloop Hf; simpl in Hloop.
  - destruct (done0 s && done1 s) eqn:D; [|discriminate].
    injection Hloop as <-. apply andb_prop in D. tauto.
  - destruct (done0 s && done1 s) eqn:D.
    + injection Hloop as <-. apply andb_prop in D. tauto.
    + destruct (searchPass c rdlen maxDiff s) as [s1|] eqn:P; [|discriminate].
      destruct (searchPass_flags _ _ _ _ _ P Hf) as (Hf1 & K0 & K1 & _).
      destruct (IH s1 s' Hloop Hf1) as (D0 & D1 & Hf' & L0 & L1).
      split; [exact D0|]. split; [exact D1|]. split; [exact Hf'|].
      split.
      * intros H0. destruct (K0 H0) as (H1 & E1 & E2).
        rewrite <- E1, <- E2. apply L0. exact H1.
      * intros H1. destruct (K1 H1) as (H2 & E1 & E2).
        rewrite <- E1, <- E2. apply L1. exact H2.
Qed.

(** When [searchForwardAndReverse] returns, both hit sets are marked done,
    which is what [go] asserts of the hit set it selects next. *)
Theorem search_leaves_both_strands_done
        (fuel : nat) (c : Classifier) (rdlen : Z)
        (hits h : ReadBWTHit.t * ReadBWTHit.t) :
  searchForwardAndReverse fuel c rdlen hits = Some h ->
  ReadBWTHit.done (fst h) = true /\ ReadBWTHit.done (snd h) = true /\
  ReadBWTHit.done
    (snd (fst (getForwardOrReverseHit c h (0, 0)))) = true.
Proof.
  unfold searchForwardAndReverse.
  match goal with
  | |- context [searchLoop fuel c rdlen ?md ?s0] =>
      destruct (searchLoop fuel c rdlen md s0) as [s|] eqn:E; [|discriminate];
        destruct (searchLoop_exit fuel c rdlen md s0 s E) as (D0 & D1 & [F0 F1] & _)
  end.
  { split; discriminate. }
  intros H. injection H as <-. cbn [fst snd].
  split; [apply F0; exact D0|]. split; [apply F1; exact D1|].
  unfold getForwardOrReverseHit.
  destruct (sumHitLength _ _ _ _) as [t0 n0].
  destruct (sumHitLength _ _ _ _) as [t1 n1]. cbn [fst snd].
  destruct ((if avgHitLength t0 n0 >? avgHitLength t1 n1 then 0 else 1) =? 0);
    [apply F0; exact D0|apply F1; exact D1].
Qed.

Lemma search_leaves_both_strands_done_witness :
  searchForwardAndReverse 1 (sampleClassifier 22 oneTaxon) 100
                          (oneHitOfLength 30 0)
  = Some (oneHitOfLength 30 0) /\
  ReadBWTHit.done (fst (oneHitOfLength 30 0)) = true.
Proof.
  split; [reflexivity|].
  apply (search_leaves_both_strands_done 1 (sampleClassifier 22 oneTaxon) 100
           (oneHitOfLength 30 0) (oneHitOfLength 30 0)).
  reflexivity.
Defined.

(** Once a strand is done the search does not call the primitive on it
    again: its hit set and its scan position are, when the search returns,
    what they were when the strand became done.  A strand whose scan
    position is more than [maxDiff] behind the other after a pass is done
    from that pass on. *)
Theorem done_strand_is_left_alone
        (fuel : nat) (c : Classifier) (rdlen maxDiff : Z) (s s' : SearchState) :
  searchLoop fuel c rdlen maxDiff s = Some s' ->
  flagsAgree s ->
  (done0 s = true -> hit0 s' = hit0 s /\ cur0 s' = cur0 s) /\
  (done1 s = true -> hit1 s' = hit1 s /\ cur1 s' = cur1 s) /\
  (forall p,
      searchPass c rdlen maxDiff s = Some p ->
      (cur0 p > sz (cur1 p + maxDiff) -> done1 p = true) /\
      (cur0 p <= sz (cur1 p + maxDiff) -> cur1 p > sz (cur0 p + maxDiff) ->
       done0 p = true)).
Proof.
  intros Hloop Hf.
  destruct (searchLoop_exit fuel c rdlen maxDiff s s' Hloop Hf)
    as (_ & _ & _ & L0 & L1).
  split; [exact L0|]. split; [exact L1|].
  intros p Hp.
  destruct (searchPass_flags _ _ _ _ _ Hp Hf) as (_ & _ & _ & A & B).
  split; assumption.
Qed.

Lemma done_strand_is_left_alone_witness :
  let s := mkSearchState true false 100 0
                         (fst (oneHitOfLength 30 0)) (snd (oneHitOfLength 30 0)) in
  flagsAgree s /\
  exists s',
    searchLoop 1 (sampleClassifier 22 oneTaxon) 100 50 s = Some s' /\
    hit0 s' = hit0 s /\ cur0 s' = 100.
Proof.
  cbn zeta.
  assert (Hf : flagsAgree
                 (mkSearchState true false 100 0
                    (fst (oneHitOfLength 30 0)) (snd (oneHitOfLength 30 0)))).
  { split; intros _; reflexivity. }
  split; [exact Hf|].
  exists (mkSearchState true true 100 100
                        (fst (oneHitOfLength 30 0)) (snd (oneHitOfLength 30 0))).
  split; [reflexivity|].
  apply (proj1 (done_strand_is_left_alone 1 (sampleClassifier 22 oneTaxon) 100 50
                  (mkSearchState true false 100 0
                     (fst (oneHitOfLength 30 0)) (snd (oneHitOfLength 30 0)))
                  (mkSearchState true true 100 100
                     (fst (oneHitOfLength 30 0)) (snd (oneHitOfLength 30 0)))
                  eq_refl Hf)).
  reflexivity.
Defined.

(** ** A coordinate seen twice in a round *)

Lemma scanSpeciesMap_stamped (sm : list SpeciesCount.t) (gw s hi w : Z)
      (x : SpeciesCount.t) :
  findSpecies sm s = Some x -> SpeciesCount.timeStamp x = hi ->
  scanSpeciesMap sm gw s hi w = Some (0, sm).
Proof.
  induction sm as [|y rest IH]; simpl; [discriminate|].
  destruct (SpeciesCount.id y =? s).
  - intros H T. injection H as ->. rewrite T, Z.eqb_refl. reflexivity.
  - intros H T. rewrite (IH H T). reflexivity.
Qed.

Lemma addHitToSpeciesMap_stamped (e : GenusCount.t) (s hi w : Z)
      (x : SpeciesCount.t) :
  findSpecies (GenusCount.speciesMap e) s = Some x ->
  SpeciesCount.timeStamp x = hi ->
  addHitToSpeciesMap e s hi w = (0, e).
Proof.
  intros F T. unfold addHitToSpeciesMap.
  rewrite (scanSpeciesMap_stamped _ _ _ _ _ _ F T).
  destruct e; reflexivity.
Qed.

Lemma creditCoord_stamped (m : list GenusCount.t) (g s hi w : Z)
      (e : GenusCount.t) (x : SpeciesCount.t) :
  findGenus m g = Some e -> GenusCount.timeStamp e = hi ->
  findSpecies (GenusCount.speciesMap e) s = Some x ->
  SpeciesCount.timeStamp x = hi ->
  creditCoord m g s hi w = (0, m).
Proof.
  intros Fg Tg Fs Ts. induction m as [|y rest IH]; simpl in Fg; [discriminate|].
  destruct (Z.eqb_spec (GenusCount.id y) g) as [E|E].
  - injection Fg as ->. rewrite (creditCoord_same _ _ _ _ _ _ E).
    cbn [creditGenusEntry]. rewrite Tg, Z.eqb_refl.
    rewrite (addHitToSpeciesMap_stamped _ _ _ _ _ Fs Ts). reflexivity.
  - rewrite (creditCoord_other _ _ _ _ _ _ E), (IH Fg). reflexivity.
Qed.

Lemma creditGenusEntry_stamp (o : option GenusCount.t) (g hi w : Z) :
  0 <= hi < 2 ^ 32 ->
  GenusCount.timeStamp (creditGenusEntry o g hi w) = hi.
Proof.
  intros Hhi. destruct o as [e|]; simpl; [|apply u32_small; exact Hhi].
  destruct (Z.eqb_spec (GenusCount.timeStamp e) hi) as [E|E]; [exact E|].
  simpl. apply u32_small. exact Hhi.
Qed.

Lemma creditSpeciesEntry_stamp (o : option SpeciesCount.t) (s hi w : Z) :
  0 <= hi < 2 ^ 32 ->
  SpeciesCount.timeStamp (creditSpeciesEntry o s hi w) = hi.
Proof.
  intros Hhi. destruct o as [x|]; simpl; [|apply u32_small; exact Hhi].
  destruct (Z.eqb_spec (SpeciesCount.timeStamp x) hi) as [E|E]; [exact E|].
  simpl. apply u32_small. exact Hhi.
Qed.

(** A coordinate that comes a second time in its round, with the same
    genus and species, changes nothing in the map and scores 0, so that it
    moves neither the best nor the second best score. *)
Theorem repeated_coordinate_is_ignored
        (m : list GenusCount.t) (g s hi w : Z) :
  0 <= hi < 2 ^ 32 ->
  let m1 := snd (creditCoord m g s hi w) in
  creditCoord m1 g s hi w = (0, m1).
Proof.
  intros Hhi. cbn zeta.
  eapply creditCoord_stamped.
  - apply creditCoord_find_same.
  - destruct (addHitToSpeciesMap_fields
                (creditGenusEntry (findGenus m g) g hi w) s hi w)
      as (_ & _ & _ & Hts).
    rewrite Hts. apply creditGenusEntry_stamp. exact Hhi.
  - apply addHitToSpeciesMap_same.
  - apply creditSpeciesEntry_stamp. exact Hhi.
Qed.

Lemma repeated_coordinate_is_ignored_witness :
  0 <= 3 < 2 ^ 32 /\
  creditCoord (snd (creditCoord [] 3 7 3 625)) 3 7 3 625
  = (0, [GenusCount.mk 3 1 625 3 [SpeciesCount.mk 7 1 625 3]]).
Proof.
  split; [lia|].
  apply (repeated_coordinate_is_ignored [] 3 7 3 625). lia.
Defined.

(** ** The weight of short hits *)

(** Up to length 65550 the weight of a partial hit is the square of its
    distance to 15, also below 15 where the unsigned difference wraps, and
    15 is the one length of weight 0. *)
Theorem weight_vanishes_only_at_15 (L : Z) :
  0 <= L <= 65550 ->
  addWeightOf L = (L - 15) * (L - 15) /\
  (addWeightOf L = 0 <-> L = 15).
Proof.
  intros HL.
  assert (E : addWeightOf L = (L - 15) * (L - 15)).
  { rewrite addWeightOf_mod. apply Z.mod_small.
    assert (0 <= (65535 - (L - 15)) * (65535 + (L - 15)))
      by (apply Z.mul_nonneg_nonneg; lia).
    assert (0 <= (L - 15) * (L - 15)) by apply Z.square_nonneg.
    lia. }
  split; [exact E|]. rewrite E. split; [|intros ->; reflexivity].
  intros H0. apply Z.eq_mul_0 in H0. lia.
Qed.

Lemma weight_vanishes_only_at_15_witness :
  0 <= 3 <= 65550 /\ addWeightOf 3 = 144.
Proof.
  split; [lia|].
  rewrite (proj1 (weight_vanishes_only_at_15 3 ltac:(lia))). reflexivity.
Defined.

(** ** The used portion of the qualifying length *)

Lemma sumZ_qualifying_perm (minHitLen : Z) (l l' : list BWTHit.t) :
  Permutation l l' ->
  sumZ (qualifyingLens minHitLen l) = sumZ (qualifyingLens minHitLen l').
Proof.
  induction 1 as [|x l l' _ IH|x y l|l l' l'' _ IH1 _ IH2].
  - reflexivity.
  - rewrite !qualifyingLens_cons.
    destruct (BWTHit.len x <? minHitLen); simpl; lia.
  - rewrite !qualifyingLens_cons.
    destruct (BWTHit.len x <? minHitLen), (BWTHit.len y <? minHitLen);
      simpl; lia.
  - lia.
Qed.

Lemma hitLoop_usedPortion (c : Classifier) (hit : ReadBWTHit.t)
      (maxGenomeHitSize : Z) (last_round : bool) (total : Z)
      (partialHits : list BWTHit.t) :
  maxGenomeHitSize < 2 ^ 64 ->
  Forall (fun h => 0 <= BWTHit.len h < 2 ^ 32) partialHits ->
  forall hi st,
    0 <= usedPortion st ->
    usedPortion st + sumZ (qualifyingLens (_minHitLen c) partialHits) < 2 ^ 64 ->
    usedPortion st
    <= usedPortion (hitLoop c hit maxGenomeHitSize last_round total hi partialHits st)
    <= usedPortion st + sumZ (qualifyingLens (_minHitLen c) partialHits).
Proof.
  intros Hmax. induction 1 as [|ph rest Hph Hrest IH]; intros hi st Hu Hsum.
  - simpl. lia.
  - assert (Hq : 0 <= sumZ (qualifyingLens (_minHitLen c) rest)).
    { apply sumZ_nonneg. apply qualifyingLens_nonneg.
      eapply Forall_impl; [|exact Hrest]. simpl. intros; lia. }
    rewrite qualifyingLens_cons in *. cbn [hitLoop].
    assert (Hsz : sz (BWTHit.len ph) = BWTHit.len ph).
    { unfold sz. apply u64_small. lia. }
    rewrite Hsz.
    destruct (BWTHit.len ph <? _minHitLen c); [apply IH; assumption|].
    cbn [sumZ fold_right] in *.
    fold (sumZ (qualifyingLens (_minHitLen c) rest)) in *.
    unfold resolveHit.
    destruct (getCoords c hit ph maxGenomeHitSize st) as [|x xs] eqn:Hco.
    { match goal with
      | |- context [hitLoop _ _ _ _ _ _ rest ?s] =>
          pose proof (IH (hi + 1) s) as IH'
      end.
      cbn [usedPortion] in IH'. specialize (IH' Hu ltac:(lia)). lia. }
    pose proof (processHit_fields c hit maxGenomeHitSize hi ph st Hmax)
      as (_ & Pu & _).
    rewrite Hsz in Pu. unfold sz in Pu. rewrite u64_small in Pu by lia.
    set (st3 := processHit c hit maxGenomeHitSize hi ph st) in *.
    destruct (genomeHitCnt st3 >=? maxGenomeHitSize); [lia|].
    destruct (last_round && scoreGapStop total st3); [lia|].
    pose proof (IH (hi + 1) st3 ltac:(lia) ltac:(lia)). lia.
Qed.

(** With the two hit sets flagged forward and reverse in that order, the
    used portion never exceeds the total qualifying length of the selected
    strand: the remaining length that enters the early-termination test is
    never negative (lengths and totals within [index_t]). *)
Theorem used_portion_within_strand_total
        (c : Classifier) (maxGenomeHitSize : Z) (paired : bool) (rdi : Z)
        (hits : ReadBWTHit.t * ReadBWTHit.t) (st : State) :
  maxGenomeHitSize < 2 ^ 64 ->
  ReadBWTHit._fw (fst hits) = true ->
  ReadBWTHit._fw (snd hits) = false ->
  Forall (fun h => 0 <= BWTHit.len h < 2 ^ 32) (ReadBWTHit._partialHits (fst hits)) ->
  Forall (fun h => 0 <= BWTHit.len h < 2 ^ 32) (ReadBWTHit._partialHits (snd hits)) ->
  sumZ (qualifyingLens (_minHitLen c) (ReadBWTHit._partialHits (fst hits))) < 2 ^ 32 ->
  sumZ (qualifyingLens (_minHitLen c) (ReadBWTHit._partialHits (snd hits))) < 2 ^ 32 ->
  Z.of_nat (length (ReadBWTHit._partialHits (fst hits))) < 2 ^ 32 ->
  Z.of_nat (length (ReadBWTHit._partialHits (snd hits))) < 2 ^ 32 ->
  let sel := getForwardOrReverseHit c hits (0, 0) in
  let total :=
    if negb (ReadBWTHit._fw (snd (fst sel))) then snd (snd sel) else fst (snd sel) in
  0 <= usedPortion (classifyMate c maxGenomeHitSize paired rdi hits st) <= total.
Proof.
  intros Hmax Fw Rc Lf Lr Sf Sr Nf Nr. cbn zeta.
  assert (Lf' : Forall (fun h => 0 <= BWTHit.len h)
                       (ReadBWTHit._partialHits (fst hits))).
  { eapply Forall_impl; [|exact Lf]. simpl. intros; lia. }
  assert (Lr' : Forall (fun h => 0 <= BWTHit.len h)
                       (ReadBWTHit._partialHits (snd hits))).
  { eapply Forall_impl; [|exact Lr]. simpl. intros; lia. }
  pose proof (qualifyingLens_length (_minHitLen c)
                (ReadBWTHit._partialHits (fst hits))) as Qf.
  pose proof (qualifyingLens_length (_minHitLen c)
                (ReadBWTHit._partialHits (snd hits))) as Qr.
  unfold classifyMate, getForwardOrReverseHit. cbn [fst snd].
  rewrite (sumHitLength_spec _ _ Lf') by lia.
  rewrite (sumHitLength_spec _ _ Lr') by lia.
  rewrite !Z.add_0_l. cbn [fst snd].
  match goal with
  | |- context [if ?b =? 0 then fst hits else snd hits] => destruct (b =? 0)
  end.
  - rewrite Fw. cbn [negb].
    match goal with
    | |- context [hitLoop c ?h maxGenomeHitSize ?lr ?t 0 ?l ?s] =>
        pose proof (hitLoop_usedPortion c h maxGenomeHitSize lr t l Hmax
                      (Permutation_Forall (sortBWTHits_perm _) Lf) 0 s) as Hu
    end.
    cbn [usedPortion] in Hu.
    rewrite <- (sumZ_qualifying_perm _ _ _ (sortBWTHits_perm _)) in Hu.
    specialize (Hu ltac:(lia) ltac:(lia)). lia.
  - rewrite Rc. cbn [negb].
    match goal with
    | |- context [hitLoop c ?h maxGenomeHitSize ?lr ?t 0 ?l ?s] =>
        pose proof (hitLoop_usedPortion c h maxGenomeHitSize lr t l Hmax
                      (Permutation_Forall (sortBWTHits_perm _) Lr) 0 s) as Hu
    end.
    cbn [usedPortion] in Hu.
    rewrite <- (sumZ_qualifying_perm _ _ _ (sortBWTHits_perm _)) in Hu.
    specialize (Hu ltac:(lia) ltac:(lia)). lia.
Qed.

Lemma used_portion_within_strand_total_witness :
  ReadBWTHit._fw (fst (twoRangesOfThree 0)) = true /\
  ReadBWTHit._fw (snd (twoRangesOfThree 0)) = false /\
  0 <= usedPortion (classifyMate (sampleClassifier 22 oneTaxon) 5 false 0
                                 (twoRangesOfThree 0) initState) <= 60.
Proof.
  split; [reflexivity|]. split; [reflexivity|].
  apply (used_portion_within_strand_total (sampleClassifier 22 oneTaxon) 5 false 0
           (twoRangesOfThree 0) initState); try reflexivity.
  - repeat constructor; by_computation.
  - repeat constructor; by_computation.
Defined.

(** ** Species counts and genus counts *)

Lemma creditCoord_Forall2 (P Q : GenusCount.t -> Prop)
      (m : list GenusCount.t) (g s hi w : Z) :
  Forall P m ->
  (forall e, P e -> Q e) ->
  (forall o,
      (forall e, o = Some e -> P e /\ GenusCount.id e = g) ->
      Q (snd (addHitToSpeciesMap (creditGenusEntry o g hi w) s hi w))) ->
  Forall Q (snd (creditCoord m g s hi w)).
Proof.
  intros Hm HPQ HQ. induction m as [|e rest IH].
  - rewrite creditCoord_nil. cbn [snd]. constructor; [|constructor].
    apply HQ. intros e He. discriminate.
  - inversion Hm as [|e0 r0 He Hrest]; subst.
    destruct (Z.eq_dec (GenusCount.id e) g) as [E|E].
    + rewrite (creditCoord_same _ _ _ _ _ _ E). cbn [snd].
      constructor; [|eapply Forall_impl; [exact HPQ|exact Hrest]].
      apply HQ. intros e' He'. injection He' as <-. split; assumption.
    + rewrite (creditCoord_other _ _ _ _ _ _ E). cbn [snd].
      constructor; [apply HPQ; exact He|]. apply IH. exact Hrest.
Qed.

Lemma scanSpeciesMap_Forall (P Q : SpeciesCount.t -> Prop)
      (gw s hi w : Z) (sm : list SpeciesCount.t) :
  (forall x, P x -> Q x) ->
  (forall x, P x -> Q (creditSpeciesEntry (Some x) s hi w)) ->
  Forall P sm ->
  forall sc sm',
    scanSpeciesMap sm gw s hi w = Some (sc, sm') -> Forall Q sm'.
Proof.
  intros HPQ Hcr. induction 1 as [|x rest Hx Hrest IH]; intros sc sm' H;
    simpl in H; [discriminate|].
  destruct (SpeciesCount.id x =? s).
  - specialize (Hcr x Hx). cbn [creditSpeciesEntry] in Hcr.
    destruct (SpeciesCount.timeStamp x =? hi); cbn [negb] in H;
      injection H as _ <-;
      (constructor; [exact Hcr|eapply Forall_impl; [exact HPQ|exact Hrest]]).
  - destruct (scanSpeciesMap rest gw s hi w) as [[sc0 rest']|]; [|discriminate].
    injection H as _ <-.
    constructor; [apply HPQ; exact Hx|]. apply (IH sc0 rest' eq_refl).
Qed.

Lemma addHitToSpeciesMap_Forall (P Q : SpeciesCount.t -> Prop)
      (e : GenusCount.t) (s hi w : Z) :
  Forall P (GenusCount.speciesMap e) ->
  (forall x, P x -> Q x) ->
  (forall x, P x -> Q (creditSpeciesEntry (Some x) s hi w)) ->
  Q (creditSpeciesEntry None s hi w) ->
  Forall Q (GenusCount.speciesMap (snd (addHitToSpeciesMap e s hi w))).
Proof.
  intros Hsm HPQ Hcr Hnew. unfold addHitToSpeciesMap.
  destruct (scanSpeciesMap (GenusCount.speciesMap e)
              (GenusCount.weightedCount e) s hi w) as [[sc sm']|] eqn:E.
  - cbn [snd setSpeciesMap GenusCount.speciesMap].
    apply (scanSpeciesMap_Forall P Q _ _ _ _ _ HPQ Hcr Hsm _ _ E).
  - cbn [snd setSpeciesMap GenusCount.speciesMap].
    apply Forall_app. split.
    + eapply Forall_impl; [exact HPQ|exact Hsm].
    + constructor; [exact Hnew|constructor].
Qed.

Lemma creditEntry_countInv (n : Z) (o : option GenusCount.t) (g s hi w : Z) :
  0 <= n -> n + 1 < 2 ^ 32 -> 0 <= hi < 2 ^ 32 ->
  (forall e, o = Some e -> genusCountInv n e) ->
  genusCountInv (n + 1)
    (snd (addHitToSpeciesMap (creditGenusEntry o g hi w) s hi w)).
Proof.
  intros Hn Hn1 Hhi Ho. unfold genusCountInv.
  destruct (addHitToSpeciesMap_fields (creditGenusEntry o g hi w) s hi w)
    as (_ & Hc & _ & Hts).
  rewrite Hc, Hts, (creditGenusEntry_stamp o g hi w Hhi).
  pose proof (u32_small hi Hhi) as Uhi.
  destruct o as [e|].
  - destruct (Ho e eq_refl) as (Hce & Hsp).
    cbn [creditGenusEntry].
    destruct (Z.eqb_spec (GenusCount.timeStamp e) hi) as [T|T].
    + split; [lia|].
      apply (addHitToSpeciesMap_Forall
               (speciesCountInv (GenusCount.count e) (GenusCount.timeStamp e))).
      * exact Hsp.
      * intros x Hx. rewrite <- T. exact Hx.
      * intros x [Hx1 Hx2]. unfold speciesCountInv. cbn [creditSpeciesEntry].
        destruct (Z.eqb_spec (SpeciesCount.timeStamp x) hi) as [Tx|Tx].
        { split; [lia|]. intros; congruence. }
        cbn. rewrite T in Hx2. specialize (Hx2 Tx).
        rewrite u32_small by lia. split; [lia|]. intros; congruence.
      * unfold speciesCountInv. cbn. split; [lia|]. intros; congruence.
    + cbn [GenusCount.count GenusCount.speciesMap].
      rewrite (u32_small (GenusCount.count e + 1)) by lia.
      split; [lia|].
      apply (addHitToSpeciesMap_Forall
               (speciesCountInv (GenusCount.count e) (GenusCount.timeStamp e))).
      * exact Hsp.
      * intros x [Hx1 Hx2]. unfold speciesCountInv. split; intros; lia.
      * intros x [Hx1 Hx2]. unfold speciesCountInv. cbn [creditSpeciesEntry].
        destruct (Z.eqb_spec (SpeciesCount.timeStamp x) hi) as [Tx|Tx].
        { split; intros; lia. }
        cbn. rewrite u32_small by lia. split; [lia|]. intros; congruence.
      * unfold speciesCountInv. cbn. split; [lia|]. intros; congruence.
  - cbn [creditGenusEntry GenusCount.count GenusCount.speciesMap].
    split; [lia|].
    apply (addHitToSpeciesMap_Forall (fun _ => False)).
    + constructor.
    + intros x [].
    + intros x [].
    + unfold speciesCountInv. cbn. split; [lia|]. intros; congruence.
Qed.

Lemma creditCoord_countInv (n : Z) (m : list GenusCount.t) (g s hi w : Z) :
  0 <= n -> n + 1 < 2 ^ 32 -> 0 <= hi < 2 ^ 32 ->
  countInv n m -> countInv (n + 1) (snd (creditCoord m g s hi w)).
Proof.
  intros Hn Hn1 Hhi Hm. unfold countInv.
  apply (creditCoord_Forall2 (genusCountInv n)); [exact Hm| |].
  - intros e [He Hs]. split; [lia|exact Hs].
  - intros o Ho. apply creditEntry_countInv; try assumption.
    intros e He. apply (Ho e He).
Qed.

(** In the map [go] reports from, every species entry has been credited at
    least once and at most as often as its genus entry: the species credit
    of a coordinate follows the genus credit, and a species is credited
    without its genus only when the genus already carries the index of the
    round, in which case the species was behind.  (Hit sets and budget
    within [index_t], the budget of a pair below 2^31.) *)
Theorem species_count_within_genus_count
        (c : Classifier) (khits : Z) (paired : bool)
        (hits : Z -> ReadBWTHit.t * ReadBWTHit.t) :
  (forall rdi,
      Z.of_nat (length (ReadBWTHit._partialHits (fst (hits rdi)))) <= 2 ^ 32 /\
      Z.of_nat (length (ReadBWTHit._partialHits (snd (hits rdi)))) <= 2 ^ 32) ->
  (if paired then 2 else 1) * idx khits < 2 ^ 32 ->
  forall g x,
    In g (_genusMap (goState c khits paired hits)) ->
    In x (GenusCount.speciesMap g) ->
    1 <= SpeciesCount.count x <= GenusCount.count g.
Proof.
  intros Hlen Hbudget.
  pose proof (u32_range khits) as Hk. fold (idx khits) in Hk.
  assert (Hmate : forall rdi st k,
             0 <= k -> k + idx khits <= 2 ^ 32 - 1 ->
             countInv k (_genusMap st) ->
             let st' := classifyMate c (idx khits) paired rdi (hits rdi) st in
             0 <= genomeHitCnt st' <= idx khits /\
             countInv (k + genomeHitCnt st') (_genusMap st')).
  { intros rdi st k Hk0 Hk1 Hinv.
    apply (classifyMate_counted countInv (2 ^ 32 - 1) (2 ^ 32)
             (fun n m g s hi w Hn Hhi _ Hm =>
                creditCoord_countInv n m g s hi w
                  (proj1 Hn) ltac:(lia) Hhi Hm)
             c (idx khits) paired rdi (hits rdi) st k);
      try assumption; try lia; apply (Hlen rdi). }
  assert (Hfinal : exists n, countInv n (_genusMap (goState c khits paired hits))).
  { unfold goState.
    destruct (Hmate 0 initState 0) as (Hc1 & Hi1);
      [lia|destruct paired; lia|constructor|].
    destruct paired.
    - destruct (Hmate 1 (classifyMate c (idx khits) true 0 (hits 0) initState)
                      (0 + genomeHitCnt
                             (classifyMate c (idx khits) true 0 (hits 0) initState)))
        as (_ & Hi2); [lia|lia|exact Hi1|].
      eexists. exact Hi2.
    - eexists. exact Hi1. }
  destruct Hfinal as (n & Hinv).
  intros g x Hg Hx. unfold countInv in Hinv. rewrite Forall_forall in Hinv.
  destruct (Hinv g Hg) as (_ & Hs). rewrite Forall_forall in Hs.
  apply (Hs x Hx).
Qed.

Lemma species_count_within_genus_count_witness :
  (if false then 2 else 1) * idx 5 < 2 ^ 32 /\
  1 <= SpeciesCount.count (SpeciesCount.mk 200 1 625 0)
    <= GenusCount.count
         (GenusCount.mk 1 1 625 0
            [SpeciesCount.mk 100 1 625 0; SpeciesCount.mk 200 1 625 0]).
Proof.
  split; [by_computation|].
  apply (species_count_within_genus_count
           (sampleClassifier 22 twoSpecies) 5 false scenarioHits).
  - intros rdi. split; by_computation.
  - by_computation.
  - left. reflexivity.
  - right. left. reflexivity.
Defined.

(** ** The resolver and the budget it is handed *)

Lemma firstn_seq_min (n start len : nat) :
  firstn n (seq start len) = seq start (Nat.min n len).
Proof.
  revert start len. induction n as [|n IH]; intros start [|len]; simpl;
    try reflexivity.
  rewrite IH. reflexivity.
Qed.

(** Clipping by the budget keeps a prefix: the coordinates resolved under a
    budget are the first ones of those resolved under any larger budget, the
    coordinate of element [k] being the walk result of that element with
    offset 0 and the strand flag passed in; under budget 0 there is none. *)
Theorem resolver_takes_prefix_of_range
        (c : Classifier) (top bot : Z) (fw : bool) (maxelt maxelt' : Z) :
  0 <= maxelt <= maxelt' ->
  getGenomeIdx c top bot fw maxelt
  = firstn (Z.to_nat maxelt) (getGenomeIdx c top bot fw maxelt') /\
  (forall k,
      (k < length (getGenomeIdx c top bot fw maxelt))%nat ->
      nth_error (getGenomeIdx c top bot fw maxelt) k
      = Some (mkCoord (advanceElement c top (Z.of_nat k)) 0 fw)) /\
  getGenomeIdx c top bot fw 0 = [].
Proof.
  intros Hm. pose proof (u32_range (bot - top)) as Hr. fold (idx (bot - top)) in Hr.
  unfold getGenomeIdx. split; [|split].
  - rewrite firstn_map, firstn_seq_min. do 2 f_equal. lia.
  - intros k Hk. rewrite length_map, length_seq in Hk.
    rewrite nth_error_map, nth_error_seq.
    destruct (Nat.ltb_spec k (Z.to_nat (Z.min (idx (bot - top)) maxelt))); [|lia].
    reflexivity.
  - replace (Z.min (idx (bot - top)) 0) with 0 by lia. reflexivity.
Qed.

Lemma resolver_takes_prefix_of_range_witness :
  0 <= 2 <= 5 /\
  getGenomeIdx (sampleClassifier 22 oneTaxon) 10 13 true 2
  = firstn 2 (getGenomeIdx (sampleClassifier 22 oneTaxon) 10 13 true 5).
Proof.
  split; [lia|].
  apply (proj1 (resolver_takes_prefix_of_range
                  (sampleClassifier 22 oneTaxon) 10 13 true 2 5 ltac:(lia))).
Defined.

(** ** The first mate of a pair *)


(** ** Sample runs of the further properties *)

Lemma genus_index_names_credited_entry_witness :
  let m := [GenusCount.mk 3 1 625 0 []; GenusCount.mk 4 1 49 0 []] in
  fst (addHitToGenusMap m 4 1 100) = 1%nat /\
  nth_error (snd (addHitToGenusMap m 4 1 100)) 0
  = Some (GenusCount.mk 3 1 625 0 []) /\
  GenusCount.id (GenusCount.mk 3 1 625 0 []) <> 4.
Proof.
  cbn zeta. split; [reflexivity|]. split; [reflexivity|].
  apply (proj2 (proj2 (proj2 (proj2
           (genus_index_names_credited_entry
              [GenusCount.mk 3 1 625 0 []; GenusCount.mk 4 1 49 0 []] 4 1 100))))
           0%nat (GenusCount.mk 3 1 625 0 [])).
  - by_computation.
  - reflexivity.
Defined.

Lemma coordinate_appends_entries_witness :
  let m := [GenusCount.mk 3 1 625 0 [SpeciesCount.mk 7 1 625 0]] in
  3 <> 4 /\
  speciesMapOf (snd (creditCoord m 4 9 1 49)) 3 = speciesMapOf m 3.
Proof.
  cbn zeta. split; [discriminate|].
  apply (proj2 (proj2 (coordinate_appends_entries
                         [GenusCount.mk 3 1 625 0 [SpeciesCount.mk 7 1 625 0]]
                         4 9 1 49))).
  discriminate.
Defined.

Lemma go_map_has_unique_ids_witness :
  let g := GenusCount.mk 1 1 625 0
             [SpeciesCount.mk 100 1 625 0; SpeciesCount.mk 200 1 625 0] in
  In g (_genusMap (goState (sampleClassifier 22 twoSpecies) 5 false scenarioHits)) /\
  NoDup (map SpeciesCount.id (GenusCount.speciesMap g)).
Proof.
  cbn zeta.
  assert (H : In (GenusCount.mk 1 1 625 0
                    [SpeciesCount.mk 100 1 625 0; SpeciesCount.mk 200 1 625 0])
                 (_genusMap (goState (sampleClassifier 22 twoSpecies) 5 false
                                     scenarioHits))).
  { left. reflexivity. }
  split; [exact H|].
  apply (proj2 (go_map_has_unique_ids (sampleClassifier 22 twoSpecies) 5 false
                                      scenarioHits) _ H).
Defined.

Lemma go_keeps_scores_ordered_witness :
  let g := GenusCount.mk 1 1 625 0
             [SpeciesCount.mk 100 1 625 0; SpeciesCount.mk 200 1 625 0] in
  In g (_genusMap (goState (sampleClassifier 22 twoSpecies) 5 false scenarioHits)) /\
  0 <= GenusCount.weightedCount g < 2 ^ 32.
Proof.
  cbn zeta.
  assert (H : In (GenusCount.mk 1 1 625 0
                    [SpeciesCount.mk 100 1 625 0; SpeciesCount.mk 200 1 625 0])
                 (_genusMap (goState (sampleClassifier 22 twoSpecies) 5 false
                                     scenarioHits))).
  { left. reflexivity. }
  split; [exact H|].
  apply (proj2 (proj2 (go_keeps_scores_ordered (sampleClassifier 22 twoSpecies)
                                               5 false scenarioHits)) _ H).
Defined.

Lemma coordinate_loop_truncates_witness :
  let c := sampleClassifier 22 twoSpecies in
  let coords := [mkCoord 0 0 true; mkCoord 1 0 true; mkCoord 2 0 true] in
  0 <= genomeHitCnt initState <= 2 /\
  genomeHitCnt (coordLoop c 2 0 40 coords initState) = 2 /\
  coordLoop c 2 0 40 coords initState
  = coordLoop c 2 0 40 [mkCoord 0 0 true; mkCoord 1 0 true] initState.
Proof.
  cbn zeta. split; [by_computation|]. split; [reflexivity|].
  apply (proj1 (coordinate_loop_truncates
                  (sampleClassifier 22 twoSpecies) 2 0 40
                  [mkCoord 0 0 true; mkCoord 1 0 true; mkCoord 2 0 true]
                  initState ltac:(by_computation) ltac:(by_computation))).
Defined.

(** ** Stamps that outlive their round *)

(** A genus entry that carries the index of the current round is not
    credited, whichever round left the stamp: its count, its weighted count
    and its stamp stay.  The round index restarts with every mate while the
    map is kept, so that round [hi] of the second mate does not credit a
    genus last credited in round [hi] of the first mate. *)
Theorem stamped_genus_is_not_credited
        (m : list GenusCount.t) (g s hi w : Z) (e : GenusCount.t) :
  findGenus m g = Some e ->
  GenusCount.timeStamp e = hi ->
  let m' := snd (creditCoord m g s hi w) in
  genusCountOf m' g = GenusCount.count e /\
  genusWeightOf m' g = GenusCount.weightedCount e /\
  option_map GenusCount.timeStamp (findGenus m' g) = Some hi.
Proof.
  intros F T. cbn zeta.
  unfold genusCountOf, genusWeightOf. rewrite creditCoord_find_same, F.
  cbn [creditGenusEntry]. rewrite T, Z.eqb_refl.
  destruct (addHitToSpeciesMap_fields e s hi w) as (_ & Hc & Hw & Hts).
  cbn [option_map]. rewrite Hc, Hw, Hts, T. auto.
Qed.

Lemma stamped_genus_is_not_credited_witness :
  let c := sampleClassifier 22 oneTaxon in
  let m1 := _genusMap (classifyMate c 5 true 0 (oneHitOfLength 40 0) initState) in
  findGenus m1 3 = Some (GenusCount.mk 3 1 625 0 [SpeciesCount.mk 7 1 625 0]) /\
  genusCountOf (snd (creditCoord m1 3 7 0 625)) 3 = 1 /\
  genusCountOf (_genusMap (goState c 5 true (oneHitOfLength 40))) 3 = 1.
Proof.
  cbn zeta. split; [reflexivity|]. split; [|reflexivity].
  apply (proj1 (stamped_genus_is_not_credited
                  (_genusMap (classifyMate (sampleClassifier 22 oneTaxon) 5 true 0
                                           (oneHitOfLength 40 0) initState))
                  3 7 0 625
                  (GenusCount.mk 3 1 625 0 [SpeciesCount.mk 7 1 625 0])
                  eq_refl eq_refl)).
Defined.
